(** * The long-text translation pipeline of [translator.py]

    A shallow embedding of [BookTranslator.translate] and
    [BookTranslator.translate_long_text]: the sentence splitter, the greedy
    chunker, the per-chunk retry loop, the pacing sleeps and the progress
    callback, with the translation backend as an oracle and every observable
    effect recorded in a trace. *)

From Stdlib Require Import String Ascii.
From Stdlib Require Import List ZArith NArith Bool Lia.
Import ListNotations.

Local Open Scope Z_scope.

(** ** Python strings

    A Python [str] is a sequence of Unicode code points. *)

Module PyStr.

Definition char := N.
Definition str := list char.

(** A literal of the source, written as a Rocq string. *)
Definition lit (s : string) : str :=
  map N_of_ascii (list_ascii_of_string s).

(** [len(s)] *)
Definition len (s : str) : Z := Z.of_nat (List.length s).

(** Truth value of a string: [if s:] holds for the non-empty ones. *)
Definition truthy (s : str) : bool :=
  match s with [] => false | _ :: _ => true end.

(** [str.isspace] on one code point, which is also what [\s] matches in a
    [str] pattern: the Unicode white space of CPython. *)
Definition isspace (c : char) : bool :=
  (((9 <=? c) && (c <=? 13)) || ((28 <=? c) && (c <=? 32))
   || (c =? 133) || (c =? 160) || (c =? 5760)
   || ((8192 <=? c) && (c <=? 8202))
   || (c =? 8232) || (c =? 8233) || (c =? 8239) || (c =? 8287)
   || (c =? 12288))%N.

Fixpoint lstrip (s : str) : str :=
  match s with
  | [] => []
  | c :: s' => if isspace c then lstrip s' else s
  end.

Definition rstrip (s : str) : str := List.rev (lstrip (List.rev s)).

(** [s.strip()] *)
Definition strip (s : str) : str := rstrip (lstrip s).

(** [sep.join(parts)] *)
Fixpoint join (sep : str) (parts : list str) : str :=
  match parts with
  | [] => []
  | [p] => p
  | p :: ps => p ++ sep ++ join sep ps
  end.

Fixpoint starts_with (needle s : str) : bool :=
  match needle, s with
  | [], _ => true
  | _ :: _, [] => false
  | a :: needle', b :: s' => (a =? b)%N && starts_with needle' s'
  end.

(** [needle in s] *)
Fixpoint contains (needle s : str) : bool :=
  starts_with needle s ||
  match s with
  | [] => false
  | _ :: s' => contains needle s'
  end.

Definition digit_char (d : N) : char := (48 + d)%N.

Fixpoint uint_str (u : Decimal.uint) : str :=
  match u with
  | Decimal.Nil => []
  | Decimal.D0 u' => digit_char 0 :: uint_str u'
  | Decimal.D1 u' => digit_char 1 :: uint_str u'
  | Decimal.D2 u' => digit_char 2 :: uint_str u'
  | Decimal.D3 u' => digit_char 3 :: uint_str u'
  | Decimal.D4 u' => digit_char 4 :: uint_str u'
  | Decimal.D5 u' => digit_char 5 :: uint_str u'
  | Decimal.D6 u' => digit_char 6 :: uint_str u'
  | Decimal.D7 u' => digit_char 7 :: uint_str u'
  | Decimal.D8 u' => digit_char 8 :: uint_str u'
  | Decimal.D9 u' => digit_char 9 :: uint_str u'
  end.

(** [str(n)] for an integer, as an f-string formats it. *)
Definition int_str (n : Z) : str :=
  match Z.to_int n with
  | Decimal.Pos u => uint_str u
  | Decimal.Neg u => 45%N :: uint_str u
  end.

End PyStr.

Import PyStr.

(** ** The sentence splitter: [re.split(r'(?<=[.!?])\s+', text)] *)

Module Splitter.

(** The look-behind class [[.!?]]. *)
Definition is_terminal (c : char) : bool :=
  ((c =? 46) || (c =? 33) || (c =? 63))%N.

(** Where the scan stands: inside a sentence after an ordinary character,
    right after a terminal punctuation mark, or inside a separator that is
    being consumed. *)
Inductive scan := Plain | AfterTerminal | InSeparator.

Definition after (c : char) : scan :=
  if is_terminal c then AfterTerminal else Plain.

(** Put a character in front of the first piece. *)
Definition push (c : char) (pieces : list str) : list str :=
  match pieces with
  | [] => [[c]]
  | p :: ps => (c :: p) :: ps
  end.

(** A separator starts at a white space that follows a terminal mark and
    runs over the whole white space after it ([\s+] is greedy); the text
    between two separators is a piece, and so are the text before the first
    and the text after the last, which is empty when the text ends in a
    separator. *)
Fixpoint split_from (st : scan) (s : str) : list str :=
  match s with
  | [] => [[]]
  | c :: s' =>
      match st with
      | InSeparator =>
          if isspace c then split_from InSeparator s'
          else push c (split_from (after c) s')
      | AfterTerminal =>
          if isspace c then [] :: split_from InSeparator s'
          else push c (split_from (after c) s')
      | Plain => push c (split_from (after c) s')
      end
  end.

Definition re_split (text : str) : list str := split_from Plain text.

End Splitter.

Import Splitter.

(** ** The chunker: lines 92 to 105 of [translate_long_text] *)

Module Chunker.

(** One round of [for sentence in sentences], on [(chunks, current_chunk)]. *)
Definition chunk_step (chunk_size : Z) (st : list str * str) (sentence : str)
  : list str * str :=
  let (chunks, current_chunk) := st in
  if (len current_chunk + len sentence >? chunk_size) && truthy current_chunk
  then (chunks ++ [current_chunk], sentence)
  else (chunks,
        current_chunk ++ (if truthy current_chunk then lit " " else lit "")
                      ++ sentence).

Definition chunk_loop (chunk_size : Z) (sentences : list str)
  (st : list str * str) : list str * str :=
  fold_left (chunk_step chunk_size) sentences st.

(** The last chunk is added when it is not empty. *)
Definition flush (st : list str * str) : list str :=
  let (chunks, current_chunk) := st in
  if truthy current_chunk then chunks ++ [current_chunk] else chunks.

Definition chunks_of_sentences (chunk_size : Z) (sentences : list str)
  : list str :=
  flush (chunk_loop chunk_size sentences ([], lit "")).

Definition make_chunks (text : str) (chunk_size : Z) : list str :=
  chunks_of_sentences chunk_size (re_split text).

End Chunker.

Import Chunker.

(** ** Effects

    The pipeline talks to three things outside itself: the translation
    backend, [time.sleep] and the caller's progress callback.  Each use is
    recorded, in order, in a trace; a computation may also raise, and carries
    then the text [str(e)] of its exception. *)

Module Effects.

Inductive event :=
| EvProgress (current total : Z)
| EvBackend (source_lang target_lang text : str)
| EvSleep (seconds : Z).

(** [calls] counts the backend attempts made so far. *)
Record world := World { calls : nat; trace : list event }.

Definition result (A : Type) := (A + str)%type.

Definition M (A : Type) := world -> result A * world.

Definition ret {A} (a : A) : M A := fun w => (inl a, w).

Definition raise {A} (e : str) : M A := fun w => (inr e, w).

Definition bind {A B} (m : M A) (k : A -> M B) : M B :=
  fun w =>
    match m w with
    | (inl a, w') => k a w'
    | (inr e, w') => (inr e, w')
    end.

(** [try: body  except Exception as e: handler(str(e))] *)
Definition try_except {A} (body : M A) (handler : str -> M A) : M A :=
  fun w =>
    match body w with
    | (inl a, w') => (inl a, w')
    | (inr e, w') => handler e w'
    end.

(** [try: body] with the outcome handed to the code after it. *)
Definition attempt {A} (body : M A) : M (result A) :=
  fun w => let (r, w') := body w in (inl r, w').

Definition emit (ev : event) : M unit :=
  fun w => (inl tt, World (calls w) (trace w ++ [ev])).

End Effects.

Import Effects.

Declare Scope py_scope.
Delimit Scope py_scope with py.
Notation "x <- m ;; k" := (bind m (fun x => k))
  (at level 61, m at next level, right associativity) : py_scope.
Notation "m ;;; k" := (bind m (fun _ => k))
  (at level 61, right associativity) : py_scope.

(** ** The translator *)

Section Translator.

(** The backend, [GoogleTranslator(source, target).translate(text)], is not
    part of the repository: its answer to the attempt number [n] is either
    the translated text or the text of the exception it raises. *)
Variable backend : nat -> str -> str -> str -> result str.

Local Open Scope py_scope.

(** One attempt: a new [GoogleTranslator] and one [translate] call. *)
Definition backend_translate (source_lang target_lang text : str) : M str :=
  fun w =>
    (backend (calls w) source_lang target_lang text,
     World (S (calls w))
           (trace w ++ [EvBackend source_lang target_lang text])).

(** [time.sleep(seconds)] *)
Definition sleep (seconds : Z) : M unit := emit (EvSleep seconds).

(** A progress callback returns, or raises with a message. *)
Definition callback := Z -> Z -> option str.

Definition call_progress (progress_callback : callback) (current total : Z)
  : M unit :=
  emit (EvProgress current total) ;;;
  match progress_callback current total with
  | None => ret tt
  | Some e => raise e
  end.

Definition max_retries : Z := 3.
Definition retry_delay : Z := 2.

(** [range(n)] *)
Definition range (n : Z) : list Z := map Z.of_nat (seq 0 (Z.to_nat n)).

(** [f"[Translation failed for chunk {i+1}: {str(e)}]"] *)
Definition failure_marker (i : Z) (e : str) : str :=
  lit "[Translation failed for chunk " ++ int_str (i + 1) ++ lit ": "
    ++ e ++ lit "]".

(** [f"Translation error: {str(e)}"] *)
Definition translation_error (e : str) : str := lit "Translation error: " ++ e.

(** [for attempt in range(max_retries)], on the attempts that are left;
    a success leaves the loop. *)
Fixpoint retry_loop (source_lang target_lang : str) (i : Z) (chunk : str)
  (attempts : list Z) (translated_chunks : list str) : M (list str) :=
  match attempts with
  | [] => ret translated_chunks
  | attempt_no :: attempts' =>
      r <- attempt (backend_translate source_lang target_lang chunk) ;;
      match r with
      | inl translated => ret (translated_chunks ++ [translated])
      | inr e =>
          if attempt_no <? max_retries - 1
          then sleep (retry_delay * (attempt_no + 1)) ;;;
               retry_loop source_lang target_lang i chunk attempts'
                          translated_chunks
          else retry_loop source_lang target_lang i chunk attempts'
                          (translated_chunks ++ [failure_marker i e])
      end
  end.

(** [for i, chunk in enumerate(chunks)], from index [i] on; [total] is
    [len(chunks)]. *)
Fixpoint translate_chunks (source_lang target_lang : str)
  (progress_callback : option callback) (total : Z) (i : Z)
  (chunks : list str) (translated_chunks : list str) : M (list str) :=
  match chunks with
  | [] => ret translated_chunks
  | chunk :: chunks' =>
      match progress_callback with
      | Some f => call_progress f (i + 1) total
      | None => ret tt
      end ;;;
      translated_chunks' <-
        retry_loop source_lang target_lang i chunk (range max_retries)
                   translated_chunks ;;
      sleep 1 ;;;
      translate_chunks source_lang target_lang progress_callback total
                       (i + 1) chunks' translated_chunks'
  end.

Definition translate_long_text (text source_lang target_lang : str)
  (chunk_size : Z) (progress_callback : option callback) : M str :=
  try_except
    (let chunks := make_chunks text chunk_size in
     translated_chunks <-
       translate_chunks source_lang target_lang progress_callback
                        (Z.of_nat (List.length chunks)) 0 chunks [] ;;
     ret (join (lit " ") translated_chunks))
    (fun e => ret (translation_error e)).

Definition translate (text source_lang target_lang : str) (chunk_size : Z)
  : M str :=
  try_except
    (if negb (truthy text) || (len (strip text) =? 0)
     then ret (lit "No text to translate")
     else if len text <=? chunk_size
     then backend_translate source_lang target_lang text
     else translate_long_text text source_lang target_lang chunk_size None)
    (fun e => ret (translation_error e)).

End Translator.

(** ** Vocabulary of the specification *)

(** *** Sentences *)

Module Sentences.

(** The state of the scan after a whole string. *)
Fixpoint run (st : scan) (s : str) : scan :=
  match s with
  | [] => st
  | c :: s' =>
      match st with
      | Plain => run (after c) s'
      | _ => if isspace c then run InSeparator s' else run (after c) s'
      end
  end.

(** The pieces of [a ++ b] from the pieces of [a] and those of [b]: the last
    piece of [a] goes on in the first piece of [b]. *)
Fixpoint glue (l1 l2 : list str) : list str :=
  match l1 with
  | [] => l2
  | [p] => match l2 with [] => [p] | q :: qs => (p ++ q) :: qs end
  | p :: ps => p :: glue ps l2
  end.

(** No white space in front. *)
Definition no_lead (s : str) : Prop :=
  match s with [] => True | c :: _ => isspace c = false end.

(** No separator inside. *)
Definition atomic (s : str) : Prop := split_from Plain s = [s].

(** The end of a sentence that is followed by a separator. *)
Definition ends_terminal (s : str) : Prop := run Plain s = AfterTerminal.

(** What holds of the sentences after the first one. *)
Inductive tail_ok : list str -> Prop :=
| tail_nil : tail_ok []
| tail_cons q l :
    atomic q -> no_lead q -> (l <> [] -> ends_terminal q) -> tail_ok l ->
    tail_ok (q :: l).

(** A text is blank when it is empty or white space only. *)
Definition blank (text : str) : bool := forallb isspace text.

(** A text without the white space of its sentence boundaries. *)
Definition without_boundaries (text : str) : str := concat (re_split text).

(** The sentences of a text, without the empty piece after a last
    separator. *)
Definition sentences_of (text : str) : list str :=
  filter truthy (re_split text).

End Sentences.

Import Sentences.

(** *** Units and their attempts *)

Module Outcome.

(** What the attempts on one unit met: the errors of the failed attempts, in
    order, and the translation of the successful one, when there is one. *)
Record history := History { errors : list str; payload : option str }.

Definition answers (h : history) : list (result str) :=
  map inr (errors h) ++
  match payload h with Some p => [inl p] | None => [] end.

(** A success comes within [max_retries] attempts; a failure is
    [max_retries] failed attempts. *)
Definition complete (h : history) : bool :=
  match payload h with
  | Some _ => (List.length (errors h) <? Z.to_nat max_retries)%nat
  | None => (List.length (errors h) =? Z.to_nat max_retries)%nat
  end.

Definition succeeded (h : history) : bool :=
  match payload h with Some _ => true | None => false end.

Definition failed (h : history) : bool := negb (succeeded h).

(** The text a unit contributes to the result; [i] is its 0-based index. *)
Definition outcome_text (i : Z) (h : history) : str :=
  match payload h with
  | Some p => p
  | None => failure_marker i (last (errors h) [])
  end.

Fixpoint outcome_texts (i : Z) (hs : list history) : list str :=
  match hs with
  | [] => []
  | h :: hs' => outcome_text i h :: outcome_texts (i + 1) hs'
  end.

Definition str_eqb (a b : str) : bool :=
  if list_eq_dec N.eq_dec a b then true else false.

Definition result_eqb (a b : result str) : bool :=
  match a, b with
  | inl x, inl y => str_eqb x y
  | inr x, inr y => str_eqb x y
  | _, _ => false
  end.

Definition message (r : result str) : str :=
  match r with inl _ => [] | inr e => e end.

(** The events of the attempts on one unit when [retried] of them failed and
    were followed by another attempt: each failed attempt, numbered from 1,
    and the delay after it, then the last attempt. *)
Definition attempts_with_backoff (factor : nat -> Z)
  (source_lang target_lang chunk : str) (retried : nat) : list event :=
  flat_map (fun a => [EvBackend source_lang target_lang chunk;
                      EvSleep (retry_delay * factor a)])
           (seq 1 retried)
  ++ [EvBackend source_lang target_lang chunk].

(** The backoff of the source: the number of the attempt that failed. *)
Definition failed_attempt_number (a : nat) : Z := Z.of_nat a.

(** The backoff as the specification words it: the number of the attempt
    that comes next. *)
Definition upcoming_attempt_number (a : nat) : Z := Z.of_nat a + 1.

Definition unit_events (source_lang target_lang chunk : str) (h : history)
  : list event :=
  attempts_with_backoff failed_attempt_number source_lang target_lang chunk
                        (List.length (answers h) - 1).

Definition progress_event (progress_callback : option callback)
  (current total : Z) : list event :=
  match progress_callback with
  | Some _ => [EvProgress current total]
  | None => []
  end.

Fixpoint chunk_events (source_lang target_lang : str)
  (progress_callback : option callback) (total i : Z)
  (chunks : list str) (hs : list history) : list event :=
  match chunks, hs with
  | chunk :: chunks', h :: hs' =>
      progress_event progress_callback (i + 1) total
      ++ unit_events source_lang target_lang chunk h ++ [EvSleep 1]
      ++ chunk_events source_lang target_lang progress_callback total (i + 1)
                      chunks' hs'
  | _, _ => []
  end.

Definition total_used (hs : list history) : nat :=
  list_sum (map (fun h => List.length (answers h)) hs).

Definition quiet (progress_callback : option callback) : Prop :=
  forall f, progress_callback = Some f -> forall a b, f a b = None.

Section Oracle.

Variable backend : nat -> str -> str -> str -> result str.
Variables source_lang target_lang : str.

(** The backend gives [rs] to the attempts from number [c] on. *)
Fixpoint answered (c : nat) (chunk : str) (rs : list (result str)) : bool :=
  match rs with
  | [] => true
  | r :: rs' =>
      result_eqb (backend c source_lang target_lang chunk) r
      && answered (S c) chunk rs'
  end.

(** The histories [hs] are those of the units [units], the first attempt on
    the first unit being attempt number [c]. *)
Fixpoint scripted (c : nat) (units : list str) (hs : list history) : bool :=
  match units, hs with
  | [], [] => true
  | u :: us, h :: hs' =>
      complete h && answered c u (answers h)
      && scripted (c + List.length (answers h)) us hs'
  | _, _ => false
  end.

(** The history of a unit read off the backend, with [n] attempts left. *)
Fixpoint observe (n : nat) (c : nat) (chunk : str) : history :=
  match n with
  | O => History [] None
  | S n' =>
      match backend c source_lang target_lang chunk with
      | inl p => History [] (Some p)
      | inr e =>
          let h := observe n' (S c) chunk in
          History (e :: errors h) (payload h)
      end
  end.

Fixpoint observe_all (c : nat) (units : list str) : list history :=
  match units with
  | [] => []
  | u :: us =>
      let h := observe (Z.to_nat max_retries) c u in
      h :: observe_all (c + List.length (answers h)) us
  end.

End Oracle.

End Outcome.

Import Outcome.

(** *** Traces *)

Module Traces.

Definition is_progress (ev : event) : bool :=
  match ev with EvProgress _ _ => true | _ => false end.

Definition is_backend (ev : event) : bool :=
  match ev with EvBackend _ _ _ => true | _ => false end.

Definition count_backend (tr : list event) : nat :=
  List.length (filter is_backend tr).

(** An event of the work on unit [u]: an attempt on it, or a delay. *)
Definition unit_event (source_lang target_lang u : str) (ev : event) : Prop :=
  ev = EvBackend source_lang target_lang u \/ exists d, ev = EvSleep d.

(** Unit by unit: the report [(k, total)], at once the first attempt on the
    unit, then the rest of the work on it; [k] counts from the given start. *)
Inductive reported_before_units (source_lang target_lang : str) (total : Z)
  : Z -> list str -> list event -> Prop :=
| rbu_done k : reported_before_units source_lang target_lang total k [] []
| rbu_unit k u us body tr :
    Forall (unit_event source_lang target_lang u) body ->
    reported_before_units source_lang target_lang total (k + 1) us tr ->
    reported_before_units source_lang target_lang total k (u :: us)
      (EvProgress k total :: EvBackend source_lang target_lang u
         :: body ++ tr).

(** The order of the specification: when [(k, total)] is reported the
    outcomes of the first [k] units are known, so at least [k] attempts have
    been made. *)
Definition reported_after_outcome (tr : list event) : Prop :=
  forall pre k total post,
    tr = pre ++ EvProgress k total :: post ->
    k <= Z.of_nat (count_backend pre).

(** The fast path as the specification words it: the one call goes through
    the retry loop of the long path. *)
Definition fast_path_retried
  (backend : nat -> str -> str -> str -> result str)
  (text source_lang target_lang : str) (chunk_size : Z) (w : world) : Prop :=
  snd (translate backend text source_lang target_lang chunk_size w)
  = snd (retry_loop backend source_lang target_lang 0 text
                    (range max_retries) [] w).

(** What a caller looks for in the result to find a failed unit. *)
Definition failure_needle : str := lit "Translation failed for chunk".

(** The translation of a unit that succeeded. *)
Definition payload_text (h : history) : str :=
  match payload h with Some p => p | None => [] end.

End Traces.

Import Traces.

(** *** Backends and callbacks of the examples *)

Module Stubs.

Definition auto : str := lit "auto".
Definition en : str := lit "en".
Definition start : world := World 0 [].

Definition upper (c : char) : char :=
  if ((97 <=? c) && (c <=? 122))%N then (c - 32)%N else c.

(** A backend that puts its input in upper case. *)
Definition upper_stub : nat -> str -> str -> str -> result str :=
  fun _ _ _ text => inl (map upper text).

(** A backend that always fails. *)
Definition down_stub : nat -> str -> str -> str -> result str :=
  fun _ _ _ _ => inr (lit "boom").

(** A backend that fails once and works from then on. *)
Definition flaky_stub : nat -> str -> str -> str -> result str :=
  fun n _ _ text => if (n =? 0)%nat then inr (lit "boom") else inl (map upper text).

(** A backend that fails on one text. *)
Definition picky_stub (bad : str) : nat -> str -> str -> str -> result str :=
  fun _ _ _ text =>
    if str_eqb text bad then inr (lit "boom") else inl (map upper text).

Definition silent : callback := fun _ _ => None.

(** A backend that fails with a message that quotes a failure marker. *)
Definition marker_stub : nat -> str -> str -> str -> result str :=
  fun _ _ _ _ => inr (lit "Translation failed for chunk 1: boom").

(** A backend that gives its input back. *)
Definition echo_stub : nat -> str -> str -> str -> result str :=
  fun _ _ _ text => inl text.

End Stubs.

Import Stubs.

(** ** The rest of the translator and its caller *)

Module Languages.

(** [self.supported_languages] of [BookTranslator.__init__], in the order of
    the source. *)
Definition supported_languages : list (str * str) :=
  [(lit "en", lit "English");
   (lit "es", lit "Spanish");
   (lit "fr", lit "French");
   (lit "de", lit "German");
   (lit "it", lit "Italian");
   (lit "pt", lit "Portuguese");
   (lit "ru", lit "Russian");
   (lit "ja", lit "Japanese");
   (lit "ko", lit "Korean");
   (lit "zh-cn", lit "Chinese (Simplified)");
   (lit "hi", lit "Hindi");
   (lit "kn", lit "Kannada");
   (lit "ar", lit "Arabic")].

Definition get_supported_languages : list (str * str) := supported_languages.

(** [s.split(sep)] for a separator that is not empty; [skip] counts the
    characters of a separator that are still to be passed over. *)
Fixpoint split_sep (sep : str) (skip : nat) (s : str) : list str :=
  match skip with
  | S k =>
      match s with
      | [] => [[]]
      | _ :: s' => split_sep sep k s'
      end
  | O =>
      match s with
      | [] => [[]]
      | c :: s' =>
          if starts_with sep s
          then [] :: split_sep sep (List.length sep - 1) s'
          else push c (split_sep sep 0 s')
      end
  end.

Definition split (sep s : str) : list str := split_sep sep 0 s.

(** [show_translator] of [app_enhanced.py], lines 1451 to 1463: the entries
    of the two select boxes, and the code read back from the entry that was
    chosen, [selection.split(" - ")[0]]. *)
Definition lang_codes : list str := map fst get_supported_languages.

Definition lang_names : list str :=
  map (fun entry => fst entry ++ lit " - " ++ snd entry)
      get_supported_languages.

Definition source_options : list str := lit "auto - Auto Detect" :: lang_names.

Definition selected_code (selection : str) : str :=
  nth 0 (split (lit " - ") selection) [].

End Languages.

Import Languages.

Section Excerpt.

Variable backend : nat -> str -> str -> str -> result str.

(** [translate_book_excerpt], with the default [chunk_size] of
    [translate]. *)
Definition translate_book_excerpt (excerpt target_lang : str) : M str :=
  translate backend excerpt (lit "auto") target_lang 4500.

End Excerpt.

Module Measures.

(** The seconds slept in a trace. *)
Definition slept (tr : list event) : Z :=
  fold_right (fun ev acc =>
                match ev with EvSleep d => d + acc | _ => acc end) 0 tr.

(** The texts sent to the backend, in order. *)
Definition backend_texts (tr : list event) : list str :=
  flat_map (fun ev =>
              match ev with EvBackend _ _ text => [text] | _ => [] end) tr.

(** Every attempt of the trace is for the given pair of languages. *)
Definition attempts_for (source_lang target_lang : str) (tr : list event)
  : Prop :=
  forall s t x, In (EvBackend s t x) tr -> s = source_lang /\ t = target_lang.

(** The history of a unit that a backend translating by [g] serves at the
    first attempt. *)
Definition translated_by (g : str -> str) (u : str) : history :=
  History [] (Some (g u)).

(** No two neighbours of the list fit the limit together. *)
Fixpoint packed (chunk_size : Z) (units : list str) : Prop :=
  match units with
  | u :: (v :: _) as units' =>
      len u + len v > chunk_size /\ packed chunk_size units'
  | _ => True
  end.

(** The last character of a sentence is a terminal mark. *)
Definition closed (s : str) : Prop :=
  exists s' c, s = s' ++ [c] /\ is_terminal c = true.

End Measures.

Import Measures.

Module Worded.

(** A result made of failure markers joined by single spaces and of
    nothing else. *)
Definition only_markers (r : result str) : Prop :=
  exists ms : list (Z * str),
    r = inl (join (lit " ")
               (map (fun m => failure_marker (fst m) (snd m)) ms)).

(** A result in which the scan for a failure marker finds nothing. *)
Definition undetected (r : result str) : Prop :=
  exists s, r = inl s /\ contains failure_needle s = false.

End Worded.

Import Worded.

(** * Facts *)

(** ** The sentence splitter *)

Example re_split_two_gaps :
  re_split (lit "Hi.  There! Ok") = [lit "Hi."; lit "There!"; lit "Ok"].
Proof. reflexivity. Qed.

Example re_split_trailing_gap :
  re_split (lit "Hi. ") = [lit "Hi."; lit ""].
Proof. reflexivity. Qed.

Example re_split_needs_terminal :
  re_split (lit " a b.c ") = [lit " a b.c "].
Proof. reflexivity. Qed.

Example re_split_line_breaks :
  re_split [97; 46; 10; 10; 98; 63; 9; 99]%N
  = [[97; 46]; [98; 63]; [99]]%N.
Proof. reflexivity. Qed.

Example re_split_terminal_first :
  re_split (lit ". a.b !  ") = [lit "."; lit "a.b !"; lit ""].
Proof. reflexivity. Qed.

Example make_chunks_long_sentence :
  make_chunks (lit "A very long one. Bb.") 7
  = [lit "A very long one."; lit "Bb."].
Proof. reflexivity. Qed.

Example make_chunks_small :
  make_chunks (lit "Aa. Bb. Cc. Dd.") 7 = [lit "Aa. Bb."; lit "Cc. Dd."].
Proof. reflexivity. Qed.

Lemma split_from_cons (st : scan) (s : str) :
  exists p ps, split_from st s = p :: ps.
Proof.
  revert st; induction s as [|c s IH]; intros st; simpl.
  - now exists [], [].
  - destruct st; try destruct (isspace c); eauto;
      destruct (IH (after c)) as (p & ps & ->); simpl; eauto.
Qed.

Lemma push_cons (c : char) (p : str) (ps : list str) :
  push c (p :: ps) = (c :: p) :: ps.
Proof. reflexivity. Qed.

Lemma glue_single_nil (l : list str) : l <> [] -> glue [[]] l = l.
Proof. destruct l; [easy | reflexivity]. Qed.

Lemma glue_cons (p : str) (l1 l2 : list str) :
  l1 <> [] -> glue (p :: l1) l2 = p :: glue l1 l2.
Proof. destruct l1; [easy | reflexivity]. Qed.

Lemma glue_push (c : char) (l1 l2 : list str) :
  l1 <> [] -> l2 <> [] -> glue (push c l1) l2 = push c (glue l1 l2).
Proof.
  destruct l1 as [|p [|q l1]]; [easy | |]; intros _ H2.
  - destruct l2; [easy | reflexivity].
  - reflexivity.
Qed.

Lemma glue_not_nil (l1 l2 : list str) : l2 <> [] -> glue l1 l2 <> [].
Proof.
  induction l1 as [|p [|q l1] IH]; simpl; intros H; auto.
  - destruct l2; easy.
  - easy.
Qed.

Lemma split_from_not_nil (st : scan) (s : str) : split_from st s <> [].
Proof. destruct (split_from_cons st s) as (p & ps & ->); easy. Qed.

(** Splitting a concatenation. *)
Lemma split_from_app (st : scan) (a b : str) :
  split_from st (a ++ b)
  = glue (split_from st a) (split_from (run st a) b).
Proof.
  revert st; induction a as [|c a IH]; intros st;
    cbn [app split_from run].
  - now rewrite glue_single_nil by apply split_from_not_nil.
  - pose proof split_from_not_nil as NN.
    destruct st; try destruct (isspace c);
      rewrite IH; try (now rewrite glue_push by apply NN);
      try reflexivity.
    now rewrite glue_cons by apply NN.
Qed.

Lemma concat_glue (l1 l2 : list str) :
  concat (glue l1 l2) = concat l1 ++ concat l2.
Proof.
  induction l1 as [|p [|q l1] IH].
  - reflexivity.
  - destruct l2; simpl; now rewrite ?app_nil_r, <- ?app_assoc.
  - change (glue (p :: q :: l1) l2) with (p :: glue (q :: l1) l2).
    change (concat (p :: glue (q :: l1) l2))
      with (p ++ concat (glue (q :: l1) l2)).
    rewrite IH. change (concat (p :: q :: l1)) with (p ++ concat (q :: l1)).
    now rewrite <- app_assoc.
Qed.

Lemma concat_split_from_app (st : scan) (a b : str) :
  concat (split_from st (a ++ b))
  = concat (split_from st a) ++ concat (split_from (run st a) b).
Proof. now rewrite split_from_app, concat_glue. Qed.

Lemma run_app (st : scan) (a b : str) : run st (a ++ b) = run (run st a) b.
Proof.
  revert st; induction a as [|c a IH]; intros st; simpl; [reflexivity|].
  destruct st; try destruct (isspace c); apply IH.
Qed.

Lemma split_from_no_lead (st : scan) (s : str) :
  no_lead s -> split_from st s = split_from Plain s.
Proof.
  destruct s as [|c s]; simpl; [reflexivity|]; intros ->; now destruct st.
Qed.

Lemma run_no_lead (st : scan) (s : str) :
  no_lead s -> s <> [] -> run st s = run Plain s.
Proof.
  destruct s as [|c s]; simpl; [easy|]; intros -> _; now destruct st.
Qed.

Lemma no_lead_app (a b : str) : a <> [] -> no_lead a -> no_lead (a ++ b).
Proof. destruct a; [easy | auto]. Qed.

Lemma atomic_cons (c : char) (p : str) :
  atomic p -> (after c <> Plain -> no_lead p) -> atomic (c :: p).
Proof.
  unfold atomic; intros A L; simpl.
  destruct (after c) eqn:E.
  - now rewrite A.
  - rewrite split_from_no_lead, A by (apply L; easy). reflexivity.
  - unfold after in E; destruct (is_terminal c); discriminate.
Qed.

Lemma after_not_separator (c : char) : after c <> InSeparator.
Proof. unfold after; destruct (is_terminal c); discriminate. Qed.

(** The pieces the splitter returns: none has a separator inside, all but
    the last end a sentence, all but the first start without white space. *)
Lemma split_from_shape (s : str) (st : scan) :
  exists p ps,
    split_from st s = p :: ps /\ atomic p /\ (st <> Plain -> no_lead p)
    /\ (ps <> [] -> run st p = AfterTerminal) /\ tail_ok ps.
Proof.
  revert st; induction s as [|c s IH]; intros st.
  - exists [], []; repeat split; try easy. constructor.
  - assert (K : forall st0, (st0 = Plain \/ isspace c = false) ->
        run st0 [c] = after c ->
        exists p ps,
          push c (split_from (after c) s) = p :: ps /\ atomic p
          /\ (st0 <> Plain -> no_lead p)
          /\ (ps <> [] -> run st0 p = AfterTerminal) /\ tail_ok ps).
    { intros st0 Hc Hr.
      destruct (IH (after c)) as (p & ps & E & A & L & R & T).
      exists (c :: p), ps; rewrite E; repeat split; auto.
      - now apply atomic_cons.
      - intros N; destruct Hc; [easy | assumption].
      - intros N. change (c :: p) with ([c] ++ p).
        rewrite run_app, Hr. auto. }
    destruct st; simpl.
    + apply K; auto.
    + destruct (isspace c) eqn:W.
      * destruct (IH InSeparator) as (p & ps & E & A & L & R & T).
        exists [], (p :: ps); rewrite E; repeat split; try easy.
        constructor; auto; [apply L; easy|].
        intros N. specialize (R N). unfold ends_terminal.
        destruct p as [|d p]; [discriminate R|].
        rewrite <- R. symmetry. apply run_no_lead; [apply L|]; easy.
      * apply K; auto. simpl. now rewrite W.
    + destruct (isspace c) eqn:W.
      * apply IH.
      * apply K; auto. simpl. now rewrite W.
Qed.

Lemma re_split_shape (text : str) :
  exists p ps,
    re_split text = p :: ps /\ atomic p
    /\ (ps <> [] -> ends_terminal p) /\ tail_ok ps.
Proof.
  destruct (split_from_shape text Plain) as (p & ps & E & A & _ & R & T).
  now exists p, ps.
Qed.

(** A sentence added after a space to a text that ends a sentence is a new
    piece of it. *)
Lemma re_split_add_sentence (current sentence : str) :
  ends_terminal current -> atomic sentence -> no_lead sentence ->
  re_split (current ++ lit " " ++ sentence) = re_split current ++ [sentence].
Proof.
  unfold re_split, ends_terminal, atomic; intros R A L.
  rewrite split_from_app, R.
  change (lit " " ++ sentence) with (32%N :: sentence).
  cbn [split_from]. change (isspace 32%N) with true. cbv iota.
  rewrite (split_from_no_lead InSeparator sentence), A by assumption.
  generalize (split_from_not_nil Plain current).
  induction (split_from Plain current) as [|p [|q l] IH]; intros N.
  - easy.
  - simpl. now rewrite app_nil_r.
  - change (glue (p :: q :: l) [[]; sentence])
      with (p :: glue (q :: l) [[]; sentence]).
    rewrite IH by easy. reflexivity.
Qed.

Lemma run_add_sentence (current sentence : str) :
  ends_terminal current -> no_lead sentence -> ends_terminal sentence ->
  ends_terminal (current ++ lit " " ++ sentence).
Proof.
  unfold ends_terminal; intros R L S.
  rewrite run_app, R. change (lit " " ++ sentence) with (32%N :: sentence).
  cbn [run]. change (isspace 32%N) with true. cbv iota.
  destruct sentence as [|c s]; [discriminate S|].
  rewrite run_no_lead; easy.
Qed.

(** ** The chunker *)

Lemma truthy_true (s : str) : truthy s = true <-> s <> [].
Proof. destruct s; simpl; split; easy. Qed.

Lemma truthy_false (s : str) : truthy s = false <-> s = [].
Proof. destruct s; simpl; split; easy. Qed.

Lemma concat_filter_truthy (l : list str) : concat (filter truthy l) = concat l.
Proof.
  induction l as [|[|c s] l IH]; simpl; auto. now rewrite IH.
Qed.

Lemma chunk_step_first (chunk_size : Z) (chunks : list str) (sentence : str) :
  chunk_step chunk_size (chunks, []) sentence = (chunks, sentence).
Proof. unfold chunk_step; simpl. now rewrite andb_false_r. Qed.

Lemma chunk_loop_cons (chunk_size : Z) (s : str) (rest : list str)
  (st : list str * str) :
  chunk_loop chunk_size (s :: rest) st
  = chunk_loop chunk_size rest (chunk_step chunk_size st s).
Proof. reflexivity. Qed.

(** The pieces of the chunks are the sentences, in order. *)
Lemma chunk_loop_pieces (chunk_size : Z) (rest : list str) :
  forall chunks current,
    tail_ok rest ->
    (rest <> [] -> current = [] \/ ends_terminal current) ->
    forall chunks' current',
      chunk_loop chunk_size rest (chunks, current) = (chunks', current') ->
      filter truthy (concat (map re_split chunks') ++ re_split current')
      = filter truthy (concat (map re_split chunks) ++ re_split current)
        ++ filter truthy rest.
Proof.
  induction rest as [|s rest IH]; intros chunks current T P chunks' current' E.
  - injection E as <- <-. simpl. now rewrite app_nil_r.
  - inversion T as [|? ? A L R T']; subst.
    rewrite chunk_loop_cons in E.
    destruct current as [|c0 current].
    + rewrite chunk_step_first in E.
      rewrite (IH _ _ T' (fun N => or_intror (R N)) _ _ E).
      unfold atomic in A. change (re_split s) with (split_from Plain s).
      rewrite A. change (re_split []) with [@nil char].
      rewrite !filter_app. simpl. rewrite app_nil_r, <- app_assoc.
      now destruct s.
    + destruct P as [P|P]; [easy | discriminate P |].
      unfold chunk_step in E. cbn [truthy] in E.
      destruct ((len (c0 :: current) + len s >? chunk_size) && true).
      * rewrite (IH _ _ T' (fun N => or_intror (R N)) _ _ E).
        unfold atomic in A. change (re_split s) with (split_from Plain s).
        rewrite A, map_app, concat_app. simpl. rewrite app_nil_r.
        rewrite !filter_app. simpl. rewrite <- !app_assoc.
        now destruct s.
      * assert (P' : rest <> [] ->
                 (c0 :: current) ++ lit " " ++ s = []
                 \/ ends_terminal ((c0 :: current) ++ lit " " ++ s)).
        { intros N; right. apply run_add_sentence; auto. }
        rewrite (IH _ _ T' P' _ _ E).
        rewrite re_split_add_sentence by assumption.
        rewrite !filter_app. simpl. rewrite <- !app_assoc.
        now destruct s.
Qed.

(** Every chunk but the first starts without white space. *)
Lemma chunk_loop_no_lead (chunk_size : Z) (rest : list str) :
  forall chunks current,
    tail_ok rest ->
    Forall no_lead (tl (chunks ++ [current])) ->
    forall chunks' current',
      chunk_loop chunk_size rest (chunks, current) = (chunks', current') ->
      Forall no_lead (tl (chunks' ++ [current'])).
Proof.
  induction rest as [|s rest IH]; intros chunks current T F chunks' current' E.
  - now injection E as <- <-.
  - inversion T as [|? ? A L R T']; subst.
    rewrite chunk_loop_cons in E.
    unfold chunk_step in E.
    destruct ((len current + len s >? chunk_size) && truthy current).
    + apply (IH _ _ T') in E; auto.
      replace (tl ((chunks ++ [current]) ++ [s]))
        with (tl (chunks ++ [current]) ++ [s])
        by (destruct chunks; reflexivity).
      apply Forall_app; split; auto.
    + apply (IH _ _ T') in E; auto.
      destruct chunks as [|c0 chunks]; [constructor|].
      simpl in *. apply Forall_app in F as [F1 F2].
      apply Forall_app; split; auto. constructor; [|constructor].
      inversion F2; subst.
      destruct current as [|d current]; simpl; auto.
Qed.

(** No chunk is empty. *)
Lemma chunk_loop_truthy (chunk_size : Z) (rest : list str) :
  forall chunks current,
    Forall (fun u => u <> []) chunks ->
    forall chunks' current',
      chunk_loop chunk_size rest (chunks, current) = (chunks', current') ->
      Forall (fun u => u <> []) chunks'.
Proof.
  induction rest as [|s rest IH]; intros chunks current F chunks' current' E.
  - now injection E as <- <-.
  - rewrite chunk_loop_cons in E.
    unfold chunk_step in E.
    destruct (len current + len s >? chunk_size); simpl in E;
      [destruct (truthy current) eqn:Tr |]; eapply IH in E; eauto.
    apply Forall_app; split; auto. constructor; [|constructor].
    now apply truthy_true.
Qed.

Lemma make_chunks_nonempty (text : str) (chunk_size : Z) :
  Forall (fun u => u <> []) (make_chunks text chunk_size).
Proof.
  unfold make_chunks, chunks_of_sentences.
  destruct (chunk_loop chunk_size (re_split text) ([], lit ""))
    as [chunks current] eqn:E.
  apply chunk_loop_truthy in E; [|constructor].
  unfold flush. destruct (truthy current) eqn:Tr; auto.
  apply Forall_app; split; auto. constructor; [|constructor].
  now apply truthy_true.
Qed.

Lemma make_chunks_pieces (text : str) (chunk_size : Z) :
  filter truthy (concat (map re_split (make_chunks text chunk_size)))
  = filter truthy (re_split text)
  /\ Forall no_lead (tl (make_chunks text chunk_size)).
Proof.
  unfold make_chunks, chunks_of_sentences.
  destruct (re_split_shape text) as (p & ps & E & A & R & T).
  rewrite E.
  destruct (chunk_loop chunk_size (p :: ps) ([], lit ""))
    as [chunks current] eqn:L.
  rewrite chunk_loop_cons in L.
  change (lit "") with (@nil char) in L. rewrite chunk_step_first in L.
  pose proof (chunk_loop_pieces _ _ _ _ T (fun N => or_intror (R N)) _ _ L)
    as P.
  pose proof (chunk_loop_no_lead _ _ [] p T (Forall_nil _) _ _ L) as F.
  unfold atomic in A. change (re_split p) with (split_from Plain p) in P.
  rewrite A in P. cbn [map concat app] in P.
  rewrite <- filter_app in P. cbn [app] in P.
  unfold flush. destruct (truthy current) eqn:Tr.
  - split; auto.
    rewrite map_app, concat_app. simpl. now rewrite app_nil_r.
  - apply truthy_false in Tr; subst current. split.
    + rewrite <- P. rewrite filter_app. simpl. now rewrite app_nil_r.
    + destruct chunks as [|c0 chunks]; [constructor|].
      simpl in *. now apply Forall_app in F as [F1 _].
Qed.

Lemma concat_split_concat (us : list str) :
  Forall no_lead us ->
  forall st, concat (split_from st (concat us)) = concat (concat (map re_split us)).
Proof.
  induction 1 as [|u us L F IH]; intros st; [reflexivity|].
  simpl. rewrite concat_split_from_app, IH, concat_app.
  now rewrite (split_from_no_lead st u).
Qed.

Lemma concat_re_split_concat (us : list str) :
  Forall no_lead (tl us) ->
  concat (re_split (concat us)) = concat (concat (map re_split us)).
Proof.
  destruct us as [|u us]; [reflexivity|]. simpl; intros F.
  unfold re_split at 1. rewrite concat_split_from_app, concat_app.
  now rewrite concat_split_concat.
Qed.

Lemma tail_ok_atomic (l : list str) : tail_ok l -> Forall atomic l.
Proof. induction 1; constructor; auto. Qed.

Lemma len_app (a b : str) : len (a ++ b) = len a + len b.
Proof. unfold len. rewrite length_app. lia. Qed.

(** What the test of line 97 does bound: a chunk is one sentence, or it is
    at most one character over the limit. *)
Lemma chunk_loop_bound (chunk_size : Z) (rest : list str) :
  forall chunks current,
    Forall atomic rest ->
    Forall (fun u => atomic u \/ len u <= chunk_size + 1) (chunks ++ [current]) ->
    forall chunks' current',
      chunk_loop chunk_size rest (chunks, current) = (chunks', current') ->
      Forall (fun u => atomic u \/ len u <= chunk_size + 1)
             (chunks' ++ [current']).
Proof.
  induction rest as [|s rest IH]; intros chunks current A F chunks' current' E.
  - now injection E as <- <-.
  - inversion A as [|? ? As A']; subst. rewrite chunk_loop_cons in E.
    unfold chunk_step in E.
    destruct (len current + len s >? chunk_size) eqn:G; cbn [andb] in E.
    + destruct (truthy current) eqn:Tr.
      * eapply IH in E; eauto. apply Forall_app; split; auto.
      * apply truthy_false in Tr; subst current.
        eapply IH in E; eauto. apply Forall_app in F as [F _].
        apply Forall_app; split; auto.
    + eapply IH in E; eauto. apply Forall_app in F as [F _].
      apply Forall_app; split; auto. constructor; [|constructor].
      destruct current as [|c0 current]; [now left | right].
      cbn [truthy]. rewrite !len_app. change (len (lit " ")) with 1.
      rewrite Z.gtb_ltb in G. apply Z.ltb_ge in G. lia.
Qed.

Lemma make_chunks_bound (text : str) (chunk_size : Z) :
  Forall (fun u => re_split u = [u] \/ len u <= chunk_size + 1)
         (make_chunks text chunk_size).
Proof.
  unfold make_chunks, chunks_of_sentences.
  destruct (re_split_shape text) as (p & ps & E & A & R & T).
  destruct (chunk_loop chunk_size (re_split text) ([], lit ""))
    as [chunks current] eqn:L.
  apply chunk_loop_bound in L.
  - unfold flush. destruct (truthy current); auto.
    now apply Forall_app in L as [L _].
  - rewrite E. constructor; auto. now apply tail_ok_atomic.
  - constructor; [now left | constructor].
Qed.

(** ** Running the translator *)

Lemma str_eqb_eq (a b : str) : str_eqb a b = true -> a = b.
Proof. unfold str_eqb; now destruct (list_eq_dec N.eq_dec a b). Qed.

Lemma str_eqb_refl (a : str) : str_eqb a a = true.
Proof. unfold str_eqb; now destruct (list_eq_dec N.eq_dec a a). Qed.

Lemma result_eqb_eq (a b : result str) : result_eqb a b = true -> a = b.
Proof.
  destruct a, b; simpl; try discriminate; intros H; f_equal;
    now apply str_eqb_eq.
Qed.

Lemma result_eqb_refl (a : result str) : result_eqb a a = true.
Proof. destruct a; apply str_eqb_refl. Qed.

Lemma world_eq (c c' : nat) (t t' : list event) :
  c = c' -> t = t' -> World c t = World c' t'.
Proof. now intros -> ->. Qed.

Lemma range_max_retries : range max_retries = [0; 1; 2].
Proof. reflexivity. Qed.

Section Runs.

Variable backend : nat -> str -> str -> str -> result str.
Variables source_lang target_lang : str.

Ltac answered_eqs A :=
  repeat match type of A with
         | (_ && _) = true =>
             let E := fresh "E" in
             apply andb_prop in A as [E A]; apply result_eqb_eq in E
         end.

Lemma retry_loop_success (i : Z) (chunk : str) (a : Z) (rest : list Z)
  (acc : list str) (w : world) (p : str) :
  backend (calls w) source_lang target_lang chunk = inl p ->
  retry_loop backend source_lang target_lang i chunk (a :: rest) acc w
  = (inl (acc ++ [p]),
     World (S (calls w))
           (trace w ++ [EvBackend source_lang target_lang chunk])).
Proof.
  intros E. cbn [retry_loop]. unfold bind, attempt, backend_translate.
  now rewrite E.
Qed.

Lemma retry_loop_retry (i : Z) (chunk : str) (a : Z) (rest : list Z)
  (acc : list str) (w : world) (e : str) :
  backend (calls w) source_lang target_lang chunk = inr e ->
  (a <? max_retries - 1) = true ->
  retry_loop backend source_lang target_lang i chunk (a :: rest) acc w
  = retry_loop backend source_lang target_lang i chunk rest acc
      (World (S (calls w))
             (trace w ++ [EvBackend source_lang target_lang chunk;
                          EvSleep (retry_delay * (a + 1))])).
Proof.
  intros E L. cbn [retry_loop]. unfold bind at 1, attempt, backend_translate.
  rewrite E, L. unfold bind, sleep, emit. cbn [calls trace].
  now rewrite <- app_assoc.
Qed.

Lemma retry_loop_give_up (i : Z) (chunk : str) (a : Z) (rest : list Z)
  (acc : list str) (w : world) (e : str) :
  backend (calls w) source_lang target_lang chunk = inr e ->
  (a <? max_retries - 1) = false ->
  retry_loop backend source_lang target_lang i chunk (a :: rest) acc w
  = retry_loop backend source_lang target_lang i chunk rest
      (acc ++ [failure_marker i e])
      (World (S (calls w))
             (trace w ++ [EvBackend source_lang target_lang chunk])).
Proof.
  intros E L. cbn [retry_loop]. unfold bind at 1, attempt, backend_translate.
  now rewrite E, L.
Qed.

(** The retry loop on one unit, given what its attempts meet. *)
Lemma retry_loop_run (i : Z) (chunk : str) (acc : list str) (w : world)
  (h : history) :
  complete h = true ->
  answered backend source_lang target_lang (calls w) chunk (answers h) = true ->
  retry_loop backend source_lang target_lang i chunk (range max_retries) acc w
  = (inl (acc ++ [outcome_text i h]),
     World (calls w + List.length (answers h))
           (trace w ++ unit_events source_lang target_lang chunk h)).
Proof.
  destruct h as [errs pay], w as [c tr]. unfold complete, outcome_text.
  cbn [errors payload calls trace].
  destruct pay as [p|];
    destruct errs as [|e1 [|e2 [|e3 [|e4 errs]]]];
    try discriminate; intros _ A; cbn in A; answered_eqs A;
    rewrite range_max_retries;
    repeat (first
      [ erewrite retry_loop_success by eassumption
      | erewrite retry_loop_retry by (first [eassumption | reflexivity])
      | erewrite retry_loop_give_up by (first [eassumption | reflexivity]) ];
      cbn [calls trace]);
    cbn [retry_loop]; unfold ret; cbn -[failure_marker];
    (f_equal; apply world_eq; [lia | now rewrite <- ?app_assoc]).
Qed.

Lemma progress_run (progress_callback : option callback) (current total : Z)
  (w : world) :
  quiet progress_callback ->
  match progress_callback with
  | Some f => call_progress f current total
  | None => ret tt
  end w
  = (inl tt,
     World (calls w)
           (trace w ++ progress_event progress_callback current total)).
Proof.
  intros Q. destruct progress_callback as [f|]; simpl.
  - unfold call_progress, bind, emit. now rewrite (Q f eq_refl).
  - unfold ret. destruct w; simpl. now rewrite app_nil_r.
Qed.

(** The loop over the units, given what the attempts on each meet. *)
Lemma translate_chunks_run (progress_callback : option callback) (total : Z) :
  quiet progress_callback ->
  forall chunks hs i acc w,
    scripted backend source_lang target_lang (calls w) chunks hs = true ->
    translate_chunks backend source_lang target_lang progress_callback total
                     i chunks acc w
    = (inl (acc ++ outcome_texts i hs),
       World (calls w + total_used hs)
             (trace w ++ chunk_events source_lang target_lang
                           progress_callback total i chunks hs)).
Proof.
  intros Q; induction chunks as [|u us IH]; intros [|h hs] i acc w S;
    try discriminate.
  - cbn. unfold ret. rewrite !app_nil_r. f_equal. destruct w; cbn.
    apply world_eq; [lia | reflexivity].
  - cbn [scripted] in S. apply andb_prop in S as [S S3].
    apply andb_prop in S as [S1 S2].
    cbn [translate_chunks]. unfold bind at 1.
    rewrite (progress_run _ _ _ _ Q). unfold bind at 1.
    rewrite (retry_loop_run _ _ _ _ h) by assumption.
    cbn [calls trace]. unfold bind at 1, sleep, emit. cbn [calls trace].
    rewrite (IH hs) by assumption. cbn [calls trace outcome_texts chunk_events].
    f_equal; [now rewrite <- app_assoc|].
    apply world_eq.
    + unfold total_used. rewrite map_cons.
      change (list_sum (?a :: ?l)) with (a + list_sum l)%nat. lia.
    + now rewrite <- !app_assoc.
Qed.

Lemma answered_observe (n c : nat) (chunk : str) :
  answered backend source_lang target_lang c chunk
           (answers (observe backend source_lang target_lang n c chunk))
  = true.
Proof.
  revert c; induction n as [|n IH]; intros c; [reflexivity|].
  cbn [observe]. destruct (backend c source_lang target_lang chunk) eqn:E.
  - unfold answers. cbn [errors payload map app answered].
    now rewrite E, result_eqb_refl.
  - specialize (IH (S c)). unfold answers in *. cbn [errors payload map app].
    cbn [answered]. now rewrite E, result_eqb_refl, IH.
Qed.

Lemma complete_observe (c : nat) (chunk : str) :
  complete (observe backend source_lang target_lang
                    (Z.to_nat max_retries) c chunk) = true.
Proof.
  change (Z.to_nat max_retries) with 3%nat. unfold complete. cbn [observe].
  repeat match goal with
         | |- context [backend ?n source_lang target_lang chunk] =>
             destruct (backend n source_lang target_lang chunk)
         end; reflexivity.
Qed.

(** The histories read off the backend are those of the units. *)
Lemma scripted_observe_all (units : list str) (c : nat) :
  scripted backend source_lang target_lang c units
           (observe_all backend source_lang target_lang c units) = true.
Proof.
  revert c; induction units as [|u us IH]; intros c; [reflexivity|].
  cbn [observe_all scripted].
  now rewrite complete_observe, answered_observe, IH.
Qed.

Lemma scripted_length (units : list str) :
  forall hs c,
    scripted backend source_lang target_lang c units hs = true ->
    List.length hs = List.length units.
Proof.
  induction units as [|u us IH]; intros [|h hs] c S; try discriminate.
  - reflexivity.
  - cbn [scripted] in S. apply andb_prop in S as [_ S].
    simpl. f_equal. eauto.
Qed.

(** The long path, given what the attempts on each unit meet. *)
Lemma translate_long_text_run (text : str) (chunk_size : Z)
  (progress_callback : option callback) (w : world) (hs : list history) :
  quiet progress_callback ->
  scripted backend source_lang target_lang (calls w)
           (make_chunks text chunk_size) hs = true ->
  translate_long_text backend text source_lang target_lang chunk_size
                      progress_callback w
  = (inl (join (lit " ") (outcome_texts 0 hs)),
     World (calls w + total_used hs)
           (trace w ++ chunk_events source_lang target_lang progress_callback
                         (Z.of_nat (List.length (make_chunks text chunk_size)))
                         0 (make_chunks text chunk_size) hs)).
Proof.
  intros Q S. unfold translate_long_text, try_except, bind.
  now rewrite (translate_chunks_run _ _ Q _ hs) by assumption.
Qed.

(** The long path returns, whatever the backend does. *)
Lemma translate_long_text_returns (text : str) (chunk_size : Z) (w : world) :
  exists s w',
    translate_long_text backend text source_lang target_lang chunk_size
                        None w = (inl s, w').
Proof.
  eexists _, _. apply translate_long_text_run with
    (hs := observe_all backend source_lang target_lang (calls w)
                       (make_chunks text chunk_size)).
  - intros f; discriminate.
  - apply scripted_observe_all.
Qed.

End Runs.

(** ** The guard and the paths of [translate] *)

Lemma lstrip_blank (s : str) : blank s = true -> lstrip s = [].
Proof.
  induction s as [|c s IH]; simpl; [reflexivity|].
  destruct (isspace c); simpl; [assumption | discriminate].
Qed.

Lemma lstrip_not_blank (s : str) : blank s = false -> lstrip s <> [].
Proof.
  induction s as [|c s IH]; simpl; [discriminate|].
  destruct (isspace c); simpl; [assumption | easy].
Qed.

Lemma blank_lstrip (s : str) : blank (lstrip s) = blank s.
Proof.
  induction s as [|c s IH]; simpl; [reflexivity|].
  destruct (isspace c) eqn:W; simpl; [assumption | now rewrite W].
Qed.

Lemma blank_rev (s : str) : blank (rev s) = blank s.
Proof.
  unfold blank. induction s as [|c s IH]; simpl; [reflexivity|].
  rewrite forallb_app, IH. simpl. rewrite andb_true_r. apply andb_comm.
Qed.

Lemma strip_blank (s : str) : (len (strip s) =? 0) = blank s.
Proof.
  unfold strip, rstrip, len. destruct (blank s) eqn:B.
  - now rewrite (lstrip_blank s B).
  - apply Z.eqb_neq. intros H.
    assert (N : lstrip (rev (lstrip s)) <> []).
    { apply lstrip_not_blank. now rewrite blank_rev, blank_lstrip. }
    destruct (lstrip (rev (lstrip s))) as [|c r]; [easy|].
    simpl in H. rewrite length_app in H. simpl in H. lia.
Qed.

(** The test of line 43 holds of the blank texts and of no other. *)
Lemma guard_blank (text : str) :
  negb (truthy text) || (len (strip text) =? 0) = blank text.
Proof.
  rewrite strip_blank. destruct text as [|c s]; [reflexivity|].
  reflexivity.
Qed.

Section Paths.

Variable backend : nat -> str -> str -> str -> result str.
Variables source_lang target_lang : str.

Lemma translate_blank (text : str) (chunk_size : Z) (w : world) :
  blank text = true ->
  translate backend text source_lang target_lang chunk_size w
  = (inl (lit "No text to translate"), w).
Proof.
  intros B. unfold translate, try_except. now rewrite guard_blank, B.
Qed.

Lemma translate_short (text : str) (chunk_size : Z) (w : world) :
  blank text = false -> len text <= chunk_size ->
  translate backend text source_lang target_lang chunk_size w
  = (inl match backend (calls w) source_lang target_lang text with
         | inl translated => translated
         | inr e => translation_error e
         end,
     World (S (calls w))
           (trace w ++ [EvBackend source_lang target_lang text])).
Proof.
  intros B L. unfold translate, try_except. rewrite guard_blank, B.
  apply Z.leb_le in L. rewrite L. unfold backend_translate.
  now destruct (backend (calls w) source_lang target_lang text).
Qed.

Lemma translate_long (text : str) (chunk_size : Z) (w : world) :
  blank text = false -> len text > chunk_size ->
  translate backend text source_lang target_lang chunk_size w
  = translate_long_text backend text source_lang target_lang chunk_size
                        None w.
Proof.
  intros B L. unfold translate, try_except at 1. rewrite guard_blank, B.
  assert (L' : (len text <=? chunk_size) = false) by (apply Z.leb_gt; lia).
  rewrite L'.
  destruct (translate_long_text_returns backend source_lang target_lang
              text chunk_size w) as (s & w' & ->).
  reflexivity.
Qed.

End Paths.

(** ** The shape of the trace *)

Section Shapes.

Variables source_lang target_lang : str.

Lemma attempts_unit_events (factor : nat -> Z) (u : str) (retried : nat) :
  Forall (unit_event source_lang target_lang u)
         (attempts_with_backoff factor source_lang target_lang u retried).
Proof.
  unfold attempts_with_backoff. apply Forall_app; split.
  - apply Forall_flat_map. apply Forall_forall. intros a _.
    constructor; [now left|]. constructor; [right; eauto | constructor].
  - constructor; [now left | constructor].
Qed.

Lemma attempts_start (factor : nat -> Z) (u : str) (retried : nat) :
  exists body,
    attempts_with_backoff factor source_lang target_lang u retried
    = EvBackend source_lang target_lang u :: body
    /\ Forall (unit_event source_lang target_lang u) body.
Proof.
  pose proof (attempts_unit_events factor u retried) as F.
  unfold attempts_with_backoff in *.
  destruct retried as [|n]; cbn [seq flat_map app] in *.
  - exists []. split; [reflexivity | constructor].
  - eexists. split; [reflexivity|]. now inversion F.
Qed.

Lemma unit_events_no_progress (u : str) (l : list event) :
  Forall (unit_event source_lang target_lang u) l -> filter is_progress l = [].
Proof.
  induction 1 as [|ev l [->|[d ->]] F IH]; simpl; auto.
Qed.

Lemma chunk_events_reported (f : callback) (total : Z) (chunks : list str) :
  forall hs i,
    List.length hs = List.length chunks ->
    reported_before_units source_lang target_lang total (i + 1) chunks
      (chunk_events source_lang target_lang (Some f) total i chunks hs).
Proof.
  induction chunks as [|u us IH]; intros [|h hs] i L; try discriminate.
  - constructor.
  - cbn [chunk_events progress_event]. unfold unit_events.
    destruct (attempts_start failed_attempt_number u
                (List.length (answers h) - 1)) as (body & -> & F).
    cbn [app].
    change (body ++ EvSleep 1 :: ?r) with (body ++ [EvSleep 1] ++ r).
    rewrite app_assoc. apply rbu_unit.
    + apply Forall_app; split; auto.
      constructor; [right; eauto | constructor].
    + apply IH. now injection L.
Qed.

Lemma chunk_events_progress (f : callback) (total : Z) (chunks : list str) :
  forall hs i,
    List.length hs = List.length chunks ->
    filter is_progress
      (chunk_events source_lang target_lang (Some f) total i chunks hs)
    = map (fun k => EvProgress (i + Z.of_nat k) total)
          (seq 1 (List.length chunks)).
Proof.
  induction chunks as [|u us IH]; intros [|h hs] i L; try discriminate.
  - reflexivity.
  - cbn [chunk_events progress_event List.length seq map].
    rewrite !filter_app. cbn [filter is_progress app].
    rewrite (unit_events_no_progress u) by apply attempts_unit_events.
    cbn [app]. change (Z.of_nat 1) with 1. f_equal.
    rewrite IH by now injection L.
    rewrite <- (seq_shift _ 1), map_map. apply map_ext. intros k.
    f_equal. lia.
Qed.

End Shapes.

(** ** The outcomes of the units *)

Lemma outcome_texts_app (hs1 hs2 : list history) :
  forall i,
    outcome_texts i (hs1 ++ hs2)
    = outcome_texts i hs1
      ++ outcome_texts (i + Z.of_nat (List.length hs1)) hs2.
Proof.
  induction hs1 as [|h hs1 IH]; intros i.
  - simpl. now rewrite Z.add_0_r.
  - cbn [app outcome_texts List.length]. rewrite IH. cbn [app].
    do 3 f_equal. lia.
Qed.

Lemma outcome_texts_succeeded (hs : list history) :
  forallb succeeded hs = true ->
  forall i, outcome_texts i hs = map payload_text hs.
Proof.
  induction hs as [|h hs IH]; intros S i; [reflexivity|].
  cbn [forallb] in S. apply andb_prop in S as [S1 S2].
  cbn [outcome_texts map]. rewrite IH by assumption. f_equal.
  unfold outcome_text, payload_text, succeeded in *.
  now destruct (payload h).
Qed.

Section AllFail.

Variable backend : nat -> str -> str -> str -> result str.
Variables source_lang target_lang : str.

Lemma observe_down (c : nat) (u : str) :
  (forall j, (j < 3)%nat ->
     exists e, backend (c + j)%nat source_lang target_lang u = inr e) ->
  observe backend source_lang target_lang (Z.to_nat max_retries) c u
  = History [message (backend c source_lang target_lang u);
             message (backend (c + 1)%nat source_lang target_lang u);
             message (backend (c + 2)%nat source_lang target_lang u)] None.
Proof.
  intros D. change (Z.to_nat max_retries) with 3%nat. cbn [observe].
  pose proof (D 0%nat ltac:(lia)) as [e0 E0].
  pose proof (D 1%nat ltac:(lia)) as [e1 E1].
  pose proof (D 2%nat ltac:(lia)) as [e2 E2].
  rewrite Nat.add_0_r in E0.
  replace (S c) with (c + 1)%nat by lia.
  replace (S (c + 1)) with (c + 2)%nat by lia.
  now rewrite E0, E1, E2.
Qed.

Lemma outcome_texts_down (units : list str) :
  forall i c,
    (forall k j, (k < List.length units)%nat -> (j < 3)%nat ->
       exists e,
         backend (c + 3 * k + j)%nat source_lang target_lang
                 (nth k units []) = inr e) ->
    outcome_texts i (observe_all backend source_lang target_lang c units)
    = map (fun k =>
             failure_marker (i + Z.of_nat k)
               (message (backend (c + 3 * k + 2)%nat source_lang target_lang
                                 (nth k units []))))
          (seq 0 (List.length units)).
Proof.
  induction units as [|u us IH]; intros i c D; [reflexivity|].
  cbn [observe_all]. rewrite observe_down.
  - cbn [outcome_texts List.length seq map]. f_equal.
    + unfold outcome_text. cbn [payload errors last nth].
      rewrite Z.add_0_r. do 3 f_equal. lia.
    + unfold answers. cbn [errors payload map app List.length].
      rewrite IH, <- (seq_shift _ 0), map_map.
      * apply map_ext. intros k.
        cbn [nth]. f_equal; [lia|]. do 2 f_equal. lia.
      * intros k j K J.
        destruct (D (S k) j ltac:(simpl; lia) J) as [e E].
        exists e. rewrite <- E. cbn [nth]. f_equal. lia.
  - intros j J. destruct (D 0%nat j ltac:(simpl; lia) J) as [e E].
    exists e. rewrite <- E. cbn [nth]. f_equal. lia.
Qed.

End AllFail.

(** ** Markers and error texts *)

(** A text that starts with ["Translation error: "] is not made of failure
    markers: those start with a bracket. *)
Lemma translation_error_not_markers (e : str) :
  ~ only_markers (inl (lit "Translation error: " ++ e)).
Proof.
  intros (ms & E). injection E as E.
  destruct ms as [|m [|m' ms]]; cbn [map join] in E; discriminate E.
Qed.

(** * The claims *)

(** ** Progress reports *)

(** C1, as the code has it.  With a progress callback that returns, the long
    path over the [N] units of a text reports [(1, N)], [(2, N)], ...,
    [(N, N)]: once per unit, in the order of the units.  The report of a
    unit comes at once before the first attempt on that unit, so before its
    outcome is known, and all the attempts, backoff delays and the pacing
    delay of the unit follow before the report of the next unit. *)
Theorem progress_reported_before_each_unit
  (backend : nat -> str -> str -> str -> result str)
  (text source_lang target_lang : str) (chunk_size : Z) (f : callback)
  (w : world) :
  (forall current total, f current total = None) ->
  exists tr,
    trace (snd (translate_long_text backend text source_lang target_lang
                                    chunk_size (Some f) w))
    = trace w ++ tr
    /\ filter is_progress tr
       = map (fun k =>
                EvProgress (Z.of_nat k)
                  (Z.of_nat (List.length (make_chunks text chunk_size))))
             (seq 1 (List.length (make_chunks text chunk_size)))
    /\ reported_before_units source_lang target_lang
         (Z.of_nat (List.length (make_chunks text chunk_size))) 1
         (make_chunks text chunk_size) tr.
Proof.
  intros Q.
  pose proof (scripted_observe_all backend source_lang target_lang
                (make_chunks text chunk_size) (calls w)) as S.
  pose proof (scripted_length _ _ _ _ _ _ S) as L.
  rewrite (translate_long_text_run backend source_lang target_lang text
             chunk_size (Some f) w _) by
    (try exact S; intros g [= <-]; exact Q).
  cbn [snd trace]. eexists; split; [reflexivity|]. split.
  - now rewrite chunk_events_progress by exact L.
  - now apply (chunk_events_reported source_lang target_lang f _ _ _ 0).
Qed.

Lemma progress_reported_before_each_unit_witness :
  (forall current total, silent current total = None)
  /\ exists tr,
    trace (snd (translate_long_text upper_stub (lit "Aa. Bb. Cc. Dd.") auto en
                                    7 (Some silent) start))
    = trace start ++ tr
    /\ filter is_progress tr
       = map (fun k =>
                EvProgress (Z.of_nat k)
                  (Z.of_nat
                     (List.length (make_chunks (lit "Aa. Bb. Cc. Dd.") 7))))
             (seq 1 (List.length (make_chunks (lit "Aa. Bb. Cc. Dd.") 7)))
    /\ reported_before_units auto en
         (Z.of_nat (List.length (make_chunks (lit "Aa. Bb. Cc. Dd.") 7))) 1
         (make_chunks (lit "Aa. Bb. Cc. Dd.") 7) tr.
Proof.
  split; [reflexivity|].
  apply progress_reported_before_each_unit. reflexivity.
Defined.

(** C1, as it is worded, fails: on a text of two units the first thing that
    happens is the report [(1, 2)], when no attempt has been made and no
    outcome is known. *)
Lemma progress_after_outcome_counterexample :
  ~ reported_after_outcome
      (trace (snd (translate_long_text upper_stub (lit "Aa. Bb. Cc. Dd.")
                                       auto en 7 (Some silent) start))).
Proof.
  intros H. specialize (H [] 1 2 _ eq_refl). cbn in H. lia.
Qed.

(** ** Backoff *)

(** C2, as the code has it.  The attempts on a unit are separated by one
    delay each: after the failed attempt number [k] (counted from 1) and
    before attempt [k + 1] the loop sleeps [retry_delay * k], that is the
    base delay before attempt 2 and twice the base delay before attempt 3.
    The last event of the loop is an attempt: nothing is slept after the
    attempt that succeeds, nor after the last failed attempt. *)
Theorem backoff_by_failed_attempt
  (backend : nat -> str -> str -> str -> result str)
  (source_lang target_lang : str) (i : Z) (chunk : str) (acc : list str)
  (w : world) (h : history) :
  complete h = true ->
  answered backend source_lang target_lang (calls w) chunk (answers h) = true ->
  trace (snd (retry_loop backend source_lang target_lang i chunk
                         (range max_retries) acc w))
  = trace w
    ++ attempts_with_backoff failed_attempt_number source_lang target_lang
         chunk (List.length (answers h) - 1).
Proof.
  intros C A. now rewrite (retry_loop_run _ _ _ _ _ _ _ h).
Qed.

Lemma backoff_by_failed_attempt_witness :
  complete (History [lit "boom"; lit "boom"] (Some (lit "HI."))) = true
  /\ answered (fun n _ _ text =>
                 if (n <? 2)%nat then inr (lit "boom")
                 else inl (map upper text))
       auto en (calls start) (lit "Hi.")
       (answers (History [lit "boom"; lit "boom"] (Some (lit "HI."))))
     = true
  /\ trace (snd (retry_loop
                   (fun n _ _ text =>
                      if (n <? 2)%nat then inr (lit "boom")
                      else inl (map upper text))
                   auto en 0 (lit "Hi.") (range max_retries) [] start))
     = trace start
       ++ [EvBackend auto en (lit "Hi."); EvSleep 2;
           EvBackend auto en (lit "Hi."); EvSleep 4;
           EvBackend auto en (lit "Hi.")].
Proof.
  split; [reflexivity|]. split; [reflexivity|].
  apply (backoff_by_failed_attempt _ auto en 0 (lit "Hi.") [] start
           (History [lit "boom"; lit "boom"] (Some (lit "HI."))));
    reflexivity.
Defined.

(** C2, as it is worded, fails: when the first attempt fails the loop sleeps
    [retry_delay * 1 = 2] before attempt 2, not [retry_delay * 2 = 4]. *)
Lemma backoff_by_upcoming_attempt_counterexample :
  trace (snd (retry_loop flaky_stub auto en 0 (lit "Hi.")
                         (range max_retries) [] start))
  <> trace start
     ++ attempts_with_backoff upcoming_attempt_number auto en (lit "Hi.") 1.
Proof. vm_compute. discriminate. Qed.

(** ** The fast path *)

(** C3, as the code has it.  A text that is not blank and not longer than
    the limit is sent to the backend as it is, in one attempt, with no retry
    and no delay; [translate] returns the translation, or, when the attempt
    raises, the text ["Translation error: "] followed by the message. *)
Theorem fast_path_single_attempt
  (backend : nat -> str -> str -> str -> result str)
  (text source_lang target_lang : str) (chunk_size : Z) (w : world) :
  blank text = false -> len text <= chunk_size ->
  translate backend text source_lang target_lang chunk_size w
  = (inl match backend (calls w) source_lang target_lang text with
         | inl translated => translated
         | inr e => lit "Translation error: " ++ e
         end,
     World (S (calls w))
           (trace w ++ [EvBackend source_lang target_lang text])).
Proof. apply translate_short. Qed.

Lemma fast_path_single_attempt_witness :
  blank (lit "Hi") = false /\ len (lit "Hi") <= 4500
  /\ translate down_stub (lit "Hi") auto en 4500 start
     = (inl (lit "Translation error: boom"),
        World 1 [EvBackend auto en (lit "Hi")]).
Proof.
  split; [reflexivity|]. split; [vm_compute; discriminate|].
  apply (fast_path_single_attempt down_stub (lit "Hi") auto en 4500 start);
    [reflexivity | vm_compute; discriminate].
Defined.

(** C3, as it is worded, fails: with a backend that is down the fast path
    makes one attempt where the retry loop makes three, with two delays. *)
Lemma fast_path_retried_counterexample :
  ~ fast_path_retried down_stub (lit "Hi") auto en 4500 start.
Proof. unfold fast_path_retried. vm_compute. discriminate. Qed.

(** C9, as the code has it.  A text that is not blank and not longer than
    the limit costs one backend attempt, whether the attempt succeeds or
    raises. *)
Theorem fast_path_one_backend_call
  (backend : nat -> str -> str -> str -> result str)
  (text source_lang target_lang : str) (chunk_size : Z) (w : world) :
  blank text = false -> len text <= chunk_size ->
  calls (snd (translate backend text source_lang target_lang chunk_size w))
  = S (calls w)
  /\ count_backend
       (trace (snd (translate backend text source_lang target_lang
                              chunk_size w)))
     = S (count_backend (trace w)).
Proof.
  intros B L. rewrite translate_short by assumption. cbn [snd calls trace].
  split; [reflexivity|]. unfold count_backend.
  rewrite filter_app, length_app. simpl. lia.
Qed.

Lemma fast_path_one_backend_call_witness :
  blank (lit "Hi") = false /\ len (lit "Hi") <= 4500
  /\ calls (snd (translate down_stub (lit "Hi") auto en 4500 start))
     = S (calls start)
  /\ count_backend
       (trace (snd (translate down_stub (lit "Hi") auto en 4500 start)))
     = S (count_backend (trace start)).
Proof.
  split; [reflexivity|]. split; [vm_compute; discriminate|].
  apply (fast_path_one_backend_call down_stub (lit "Hi") auto en 4500 start);
    [reflexivity | vm_compute; discriminate].
Defined.

(** C9, as it is worded, fails: the empty text is not longer than the limit
    and costs no backend attempt. *)
Lemma short_text_one_call_counterexample :
  len (lit "") <= 4500
  /\ calls (snd (translate upper_stub (lit "") auto en 4500 start))
     <> S (calls start).
Proof. split; vm_compute; discriminate. Qed.

(** C10, as the code has it.  When the one attempt of the fast path raises,
    [translate] returns ["Translation error: "] followed by the message.
    That prefix does not hold the text ["Translation failed for chunk"],
    and the result holds it exactly when the message of the backend itself
    does: a scan for the marker finds nothing in the result of a failed
    fast path if, and only if, it finds nothing in the message. *)
Theorem fast_path_failure_shape
  (backend : nat -> str -> str -> str -> result str)
  (text source_lang target_lang : str) (chunk_size : Z) (w : world)
  (e : str) :
  blank text = false -> len text <= chunk_size ->
  backend (calls w) source_lang target_lang text = inr e ->
  fst (translate backend text source_lang target_lang chunk_size w)
  = inl (lit "Translation error: " ++ e)
  /\ contains failure_needle (lit "Translation error: ") = false
  /\ contains failure_needle (lit "Translation error: " ++ e)
     = contains failure_needle e
  /\ (undetected
        (fst (translate backend text source_lang target_lang chunk_size w))
      <-> contains failure_needle e = false).
Proof.
  intros B L E. rewrite translate_short, E by assumption. cbn [fst].
  split; [reflexivity|]. split; [reflexivity|]. split; [reflexivity|].
  split.
  - intros (s & [= <-] & C). exact C.
  - intros C. eexists. split; [reflexivity | exact C].
Qed.

Lemma fast_path_failure_shape_witness :
  blank (lit "Hi") = false /\ len (lit "Hi") <= 4500
  /\ down_stub (calls start) auto en (lit "Hi") = inr (lit "boom")
  /\ fst (translate down_stub (lit "Hi") auto en 4500 start)
     = inl (lit "Translation error: " ++ lit "boom")
  /\ contains failure_needle (lit "Translation error: ") = false
  /\ contains failure_needle (lit "Translation error: " ++ lit "boom")
     = contains failure_needle (lit "boom")
  /\ (undetected (fst (translate down_stub (lit "Hi") auto en 4500 start))
      <-> contains failure_needle (lit "boom") = false).
Proof.
  split; [reflexivity|]. split; [vm_compute; discriminate|].
  split; [reflexivity|].
  apply (fast_path_failure_shape down_stub (lit "Hi") auto en 4500 start);
    [reflexivity | vm_compute; discriminate | reflexivity].
Defined.

(** C10, as it is worded, fails: when the message of the backend quotes a
    failure marker, the result of the failed fast path holds
    ["Translation failed for chunk"] and the scan finds it. *)
Lemma fast_path_failure_undetected_counterexample :
  ~ undetected (fst (translate marker_stub (lit "Hi") auto en 4500 start)).
Proof.
  intros (s & E & C). vm_compute in E. injection E as <-.
  vm_compute in C. discriminate C.
Qed.

(** ** Blank input *)

(** C5, as the code has it.  For a blank or empty text [translate] returns
    ["No text to translate"], with a capital N, and leaves the world as it
    was: no backend attempt, no progress report, no delay. *)
Theorem blank_text_short_circuits
  (backend : nat -> str -> str -> str -> result str)
  (text source_lang target_lang : str) (chunk_size : Z) (w : world) :
  blank text = true ->
  translate backend text source_lang target_lang chunk_size w
  = (inl (lit "No text to translate"), w).
Proof. apply translate_blank. Qed.

Lemma blank_text_short_circuits_witness :
  blank (lit "  ") = true
  /\ translate upper_stub (lit "  ") auto en 4500 start
     = (inl (lit "No text to translate"), start).
Proof.
  split; [reflexivity|].
  apply (blank_text_short_circuits upper_stub (lit "  ") auto en 4500 start).
  reflexivity.
Defined.

(** C5, as it is worded, fails on the letter: the text returned for the
    empty input is not ["no text to translate"]. *)
Lemma blank_text_sentinel_counterexample :
  fst (translate upper_stub (lit "") auto en 4500 start)
  <> inl (lit "no text to translate").
Proof. vm_compute. discriminate. Qed.

(** ** Failures stay inside the result *)

(** C6, as the code has it.  [translate] returns a string and never raises,
    whatever the text and whatever the backend does at each attempt.  When
    the text is not blank, is longer than the limit, and the three attempts
    on every unit fail, the result is made of failure markers only: those
    of the units, one per unit and in order, joined by single spaces, each
    with the message of the third attempt on its unit.  When the text is
    not blank, is not longer than the limit, and its one attempt fails, the
    result is ["Translation error: "] followed by the message, which is not
    a failure marker. *)
Theorem translate_always_returns
  (backend : nat -> str -> str -> str -> result str)
  (text source_lang target_lang : str) (chunk_size : Z) (w : world) :
  (exists s w',
     translate backend text source_lang target_lang chunk_size w
     = (inl s, w'))
  /\ (blank text = false -> len text > chunk_size ->
      (forall k j,
         (k < List.length (make_chunks text chunk_size))%nat -> (j < 3)%nat ->
         exists e,
           backend (calls w + 3 * k + j)%nat source_lang target_lang
                   (nth k (make_chunks text chunk_size) []) = inr e) ->
      fst (translate backend text source_lang target_lang chunk_size w)
      = inl (join (lit " ")
               (map (fun k =>
                       failure_marker (Z.of_nat k)
                         (message
                            (backend (calls w + 3 * k + 2)%nat source_lang
                               target_lang
                               (nth k (make_chunks text chunk_size) []))))
                    (seq 0 (List.length (make_chunks text chunk_size)))))
      /\ only_markers
           (fst (translate backend text source_lang target_lang chunk_size
                           w)))
  /\ (blank text = false -> len text <= chunk_size ->
      forall e,
        backend (calls w) source_lang target_lang text = inr e ->
        fst (translate backend text source_lang target_lang chunk_size w)
        = inl (lit "Translation error: " ++ e)
        /\ ~ only_markers
               (fst (translate backend text source_lang target_lang
                               chunk_size w))).
Proof.
  split; [|split].
  - unfold translate, try_except.
    destruct (negb (truthy text) || (len (strip text) =? 0));
      [unfold ret; eauto|].
    destruct (len text <=? chunk_size).
    + unfold backend_translate, ret.
      destruct (backend (calls w) source_lang target_lang text); eauto.
    + destruct (translate_long_text_returns backend source_lang target_lang
                  text chunk_size w) as (s & w' & ->). eauto.
  - intros B L D. rewrite translate_long by assumption.
    rewrite (translate_long_text_run backend source_lang target_lang text
               chunk_size None w
               (observe_all backend source_lang target_lang (calls w)
                  (make_chunks text chunk_size)))
      by (try apply scripted_observe_all; intros f; discriminate).
    cbn [fst]. rewrite (outcome_texts_down _ _ _ _ _ _ D).
    split; [reflexivity|].
    exists (map (fun k =>
                   (Z.of_nat k,
                    message
                      (backend (calls w + 3 * k + 2)%nat source_lang
                         target_lang
                         (nth k (make_chunks text chunk_size) []))))
                (seq 0 (List.length (make_chunks text chunk_size)))).
    now rewrite map_map.
  - intros B L e E. rewrite translate_short, E by assumption. cbn [fst].
    split; [reflexivity|]. apply translation_error_not_markers.
Qed.

Lemma translate_always_returns_witness :
  blank (lit "Aa. Bb. Cc. Dd.") = false
  /\ len (lit "Aa. Bb. Cc. Dd.") > 7
  /\ (forall k j,
        (k < List.length (make_chunks (lit "Aa. Bb. Cc. Dd.") 7))%nat ->
        (j < 3)%nat ->
        exists e,
          down_stub (calls start + 3 * k + j)%nat auto en
                    (nth k (make_chunks (lit "Aa. Bb. Cc. Dd.") 7) [])
          = inr e)
  /\ fst (translate down_stub (lit "Aa. Bb. Cc. Dd.") auto en 7 start)
     = inl (lit "[Translation failed for chunk 1: boom]"
              ++ lit " " ++ lit "[Translation failed for chunk 2: boom]")
  /\ blank (lit "Hi") = false
  /\ len (lit "Hi") <= 4500
  /\ down_stub (calls start) auto en (lit "Hi") = inr (lit "boom")
  /\ fst (translate down_stub (lit "Hi") auto en 4500 start)
     = inl (lit "Translation error: " ++ lit "boom").
Proof.
  split; [reflexivity|]. split; [reflexivity|].
  split; [intros; eexists; reflexivity|].
  split.
  - apply (proj1 (proj2 (translate_always_returns down_stub
                           (lit "Aa. Bb. Cc. Dd.") auto en 7 start)));
      [reflexivity | reflexivity | intros; eexists; reflexivity].
  - split; [reflexivity|]. split; [vm_compute; discriminate|].
    split; [reflexivity|].
    apply (proj2 (proj2 (translate_always_returns down_stub (lit "Hi")
                           auto en 4500 start)));
      [reflexivity | vm_compute; discriminate | reflexivity].
Defined.

(** C6, as it is worded, fails on the fast path: the one unit of the short
    text ["Hi"] fails for good, and the result, ["Translation error: boom"],
    is not made of failure markers. *)
Lemma short_failure_only_markers_counterexample :
  ~ only_markers (fst (translate down_stub (lit "Hi") auto en 4500 start)).
Proof.
  intros (ms & E). vm_compute in E.
  destruct ms as [|m [|m' ms]]; discriminate E.
Qed.

(** C7.  In a job of several units where the attempts on one unit all fail
    and every other unit succeeds, the result is the texts of the units in
    order, joined by single spaces: the translation of each unit that
    succeeded, and at the place of the failed unit the marker
    ["[Translation failed for chunk {index}: {message}]"] with its place
    counted from 1 and the message of its last attempt. *)
Theorem failed_unit_marked_in_place
  (backend : nat -> str -> str -> str -> result str)
  (text source_lang target_lang : str) (chunk_size : Z)
  (progress_callback : option callback) (w : world)
  (hb : list history) (h : history) (ha : list history) :
  quiet progress_callback ->
  scripted backend source_lang target_lang (calls w)
           (make_chunks text chunk_size) (hb ++ h :: ha) = true ->
  (0 < List.length hb + List.length ha)%nat ->
  forallb succeeded hb = true -> failed h = true ->
  forallb succeeded ha = true ->
  fst (translate_long_text backend text source_lang target_lang chunk_size
                           progress_callback w)
  = inl (join (lit " ")
           (map payload_text hb
            ++ [lit "[Translation failed for chunk "
                  ++ int_str (Z.of_nat (List.length hb) + 1) ++ lit ": "
                  ++ last (errors h) [] ++ lit "]"]
            ++ map payload_text ha)).
Proof.
  intros Q S _ Sb F Sa.
  rewrite (translate_long_text_run _ _ _ _ _ _ _ _ Q S). cbn [fst].
  rewrite outcome_texts_app, (outcome_texts_succeeded hb Sb).
  cbn [outcome_texts app]. rewrite (outcome_texts_succeeded ha Sa).
  unfold outcome_text, failed, succeeded in *.
  destruct (payload h); [discriminate|]. reflexivity.
Qed.

Lemma failed_unit_marked_in_place_witness :
  quiet None
  /\ scripted (picky_stub (lit "Cc. Dd.")) auto en (calls start)
       (make_chunks (lit "Aa. Bb. Cc. Dd. Ee. Ff.") 7)
       ([History [] (Some (lit "AA. BB."))]
        ++ History [lit "boom"; lit "boom"; lit "boom"] None
        :: [History [] (Some (lit "EE. FF."))]) = true
  /\ fst (translate_long_text (picky_stub (lit "Cc. Dd."))
            (lit "Aa. Bb. Cc. Dd. Ee. Ff.") auto en 7 None start)
     = inl (lit "AA. BB. [Translation failed for chunk 2: boom] EE. FF.").
Proof.
  split; [intros f; discriminate|]. split; [reflexivity|].
  apply (failed_unit_marked_in_place (picky_stub (lit "Cc. Dd."))
           (lit "Aa. Bb. Cc. Dd. Ee. Ff.") auto en 7 None start
           [History [] (Some (lit "AA. BB."))]
           (History [lit "boom"; lit "boom"; lit "boom"] None)
           [History [] (Some (lit "EE. FF."))]);
    [intros f; discriminate | reflexivity | simpl; lia
    | reflexivity | reflexivity | reflexivity].
Defined.

(** ** The chunker *)

(** C8.  The units of a long text, put one after the other, are the text
    again once the white space of the sentence boundaries is left out of
    both; split again, the units give back the sentences of the text, the
    same ones in the same order.  The chunker is a function of the text and
    of the limit, so two runs give the same units. *)
Theorem chunks_reconstruct_text (text : str) (chunk_size : Z) :
  len text > chunk_size ->
  without_boundaries (concat (make_chunks text chunk_size))
  = without_boundaries text
  /\ filter truthy (concat (map re_split (make_chunks text chunk_size)))
     = sentences_of text
  /\ (forall units units',
        units = make_chunks text chunk_size ->
        units' = make_chunks text chunk_size -> units = units').
Proof.
  intros _. destruct (make_chunks_pieces text chunk_size) as [P F].
  split; [|split; [exact P | now intros ? ? -> ->]].
  unfold without_boundaries.
  rewrite concat_re_split_concat by exact F.
  rewrite <- concat_filter_truthy, P. apply concat_filter_truthy.
Qed.

Lemma chunks_reconstruct_text_witness :
  len (lit "Aa.  Bb.   Cc. Dd. ") > 7
  /\ without_boundaries (concat (make_chunks (lit "Aa.  Bb.   Cc. Dd. ") 7))
     = without_boundaries (lit "Aa.  Bb.   Cc. Dd. ")
  /\ filter truthy
       (concat (map re_split (make_chunks (lit "Aa.  Bb.   Cc. Dd. ") 7)))
     = sentences_of (lit "Aa.  Bb.   Cc. Dd. ")
  /\ (forall units units',
        units = make_chunks (lit "Aa.  Bb.   Cc. Dd. ") 7 ->
        units' = make_chunks (lit "Aa.  Bb.   Cc. Dd. ") 7 ->
        units = units').
Proof.
  split; [reflexivity|].
  apply (chunks_reconstruct_text (lit "Aa.  Bb.   Cc. Dd. ") 7).
  reflexivity.
Defined.

(** C4, at an input where the code breaks it.  The text ["ab. cd."] is
    longer than the limit 6 and has the two sentences ["ab."] and ["cd."],
    neither of them over the limit; the chunker makes one unit of them,
    ["ab. cd."], of 7 characters: the space that joins two sentences is not
    counted when the limit is tested. *)
Theorem chunk_over_limit_by_joining_space :
  len (lit "ab. cd.") > 6
  /\ re_split (lit "ab. cd.") = [lit "ab."; lit "cd."]
  /\ make_chunks (lit "ab. cd.") 6 = [lit "ab. cd."]
  /\ len (lit "ab. cd.") = 7.
Proof. repeat split. Qed.

(** * Further properties *)

(** ** Sentences *)

Lemma closed_cons (c : char) (s : str) : closed s -> closed (c :: s).
Proof. intros (s' & d & -> & T). now exists (c :: s'), d. Qed.

Lemma run_terminal_closed (s : str) :
  forall st, s <> [] -> run st s = AfterTerminal -> closed s.
Proof.
  induction s as [|c s IH]; intros st N R; [easy|].
  destruct s as [|d s].
  - exists [], c. split; [reflexivity|].
    assert (A : after c = AfterTerminal).
    { destruct st; simpl in R; auto; destruct (isspace c); auto;
        discriminate. }
    unfold after in A. now destruct (is_terminal c).
  - apply closed_cons. change (c :: d :: s) with ([c] ++ d :: s) in R.
    rewrite run_app in R. eapply IH; eauto. easy.
Qed.

Lemma ends_terminal_closed (s : str) : ends_terminal s -> closed s.
Proof.
  intros R. destruct s as [|c s]; [discriminate R|].
  eapply run_terminal_closed; eauto; easy.
Qed.

Lemma tail_ok_closed (l : list str) :
  tail_ok l -> Forall closed (removelast l).
Proof.
  induction 1 as [|q l A L R T IH]; [constructor|].
  destruct l as [|r l]; [constructor|].
  change (removelast (q :: r :: l)) with (q :: removelast (r :: l)).
  constructor; auto. apply ends_terminal_closed, R. easy.
Qed.

Lemma tail_ok_no_lead (l : list str) : tail_ok l -> Forall no_lead l.
Proof. induction 1; constructor; auto. Qed.

(** X1.  What [re.split(r'(?<=[.!?])\s+', text)] returns: every sentence but
    the last ends in [.], [!] or [?]; every sentence but the first starts
    with a character that is not white space, when it is not empty; and no
    sentence has a separator inside, so that splitting a sentence again
    gives the sentence back. *)
Theorem sentences_well_formed (text : str) :
  Forall closed (removelast (re_split text))
  /\ Forall no_lead (tl (re_split text))
  /\ Forall (fun s => re_split s = [s]) (re_split text).
Proof.
  destruct (re_split_shape text) as (p & ps & -> & A & R & T).
  split; [|split].
  - destruct ps as [|q ps]; [constructor|].
    change (removelast (p :: q :: ps)) with (p :: removelast (q :: ps)).
    constructor; [apply ends_terminal_closed, R; easy|].
    now apply tail_ok_closed.
  - now apply tail_ok_no_lead.
  - constructor; [exact A | now apply tail_ok_atomic].
Qed.

(** ** More on the chunker *)

Lemma re_split_cons (c : char) (s : str) :
  exists p ps, re_split (c :: s) = (c :: p) :: ps.
Proof.
  unfold re_split; simpl.
  destruct (split_from_cons (after c) s) as (p & ps & ->). now exists p, ps.
Qed.

Lemma make_chunks_nil_iff (text : str) (chunk_size : Z) :
  make_chunks text chunk_size = [] <-> text = [].
Proof.
  split.
  - intros E. destruct (make_chunks_pieces text chunk_size) as [P _].
    rewrite E in P. destruct text as [|c s]; [reflexivity|].
    destruct (re_split_cons c s) as (p & ps & R). rewrite R in P.
    simpl in P. discriminate P.
  - intros ->. unfold make_chunks, chunks_of_sentences.
    change (re_split []) with [@nil char]. change (lit "") with (@nil char).
    now rewrite chunk_loop_cons, chunk_step_first.
Qed.

Lemma flush_length (chunks : list str) (current : str) :
  (List.length chunks <= List.length (flush (chunks, current))
   <= List.length chunks + 1)%nat.
Proof.
  unfold flush. destruct (truthy current); rewrite ?length_app; simpl; lia.
Qed.

Lemma chunk_step_count (chunk_size : Z) (chunks : list str)
  (current s : str) :
  (List.length (flush (chunk_step chunk_size (chunks, current) s))
   <= List.length (flush (chunks, current)) + 1)%nat.
Proof.
  unfold chunk_step.
  destruct ((len current + len s >? chunk_size) && truthy current) eqn:G.
  - apply andb_prop in G as [_ Tr].
    pose proof (flush_length (chunks ++ [current]) s) as F.
    replace (flush (chunks, current)) with (chunks ++ [current])
      by (unfold flush; now rewrite Tr).
    lia.
  - pose proof (flush_length chunks
                  (current ++ (if truthy current then lit " " else lit "")
                           ++ s)) as F.
    pose proof (flush_length chunks current) as F'.
    apply Nat.le_trans with (List.length chunks + 1)%nat; [apply F|].
    apply Nat.add_le_mono_r, F'.
Qed.

Lemma chunk_loop_count (chunk_size : Z) (rest : list str) :
  forall st,
    (List.length (flush (chunk_loop chunk_size rest st))
     <= List.length (flush st) + List.length rest)%nat.
Proof.
  induction rest as [|s rest IH]; intros [chunks current].
  - cbn [chunk_loop fold_left List.length]. lia.
  - rewrite chunk_loop_cons. etransitivity; [apply IH|].
    pose proof (chunk_step_count chunk_size chunks current s).
    cbn [List.length]. lia.
Qed.

(** X2.  No unit of the chunker is empty. *)
Theorem units_not_empty (text : str) (chunk_size : Z) :
  Forall (fun u => u <> []) (make_chunks text chunk_size).
Proof. apply make_chunks_nonempty. Qed.

(** X3.  A unit is one whole sentence, or it is at most [chunk_size + 1]
    characters long: the limit can be passed by the one space that joins
    the last sentence, and otherwise only by a sentence that is too long by
    itself. *)
Theorem unit_length_bound (text : str) (chunk_size : Z) :
  Forall (fun u => re_split u = [u] \/ len u <= chunk_size + 1)
         (make_chunks text chunk_size).
Proof. apply make_chunks_bound. Qed.

(** X4.  A text without a sentence separator is never cut: whatever the
    limit, it is the one unit. *)
Theorem single_sentence_single_unit (text : str) (chunk_size : Z) :
  text <> [] -> re_split text = [text] ->
  make_chunks text chunk_size = [text].
Proof.
  intros N E. unfold make_chunks, chunks_of_sentences. rewrite E.
  rewrite chunk_loop_cons. change (lit "") with (@nil char).
  rewrite chunk_step_first. cbn [chunk_loop fold_left flush].
  apply truthy_true in N. now rewrite N.
Qed.

Lemma single_sentence_single_unit_witness :
  lit "one long sentence without an end" <> []
  /\ re_split (lit "one long sentence without an end")
     = [lit "one long sentence without an end"]
  /\ make_chunks (lit "one long sentence without an end") 10
     = [lit "one long sentence without an end"].
Proof.
  split; [discriminate|]. split; [reflexivity|].
  apply (single_sentence_single_unit
           (lit "one long sentence without an end") 10);
    [discriminate | reflexivity].
Defined.

(** X5.  The chunker returns no unit for the empty text and for no other
    text. *)
Theorem no_unit_iff_empty_text (text : str) (chunk_size : Z) :
  make_chunks text chunk_size = [] <-> text = [].
Proof. apply make_chunks_nil_iff. Qed.

(** X6.  There are never more units than sentences. *)
Theorem units_at_most_sentences (text : str) (chunk_size : Z) :
  (List.length (make_chunks text chunk_size)
   <= List.length (re_split text))%nat.
Proof.
  unfold make_chunks, chunks_of_sentences.
  apply (chunk_loop_count chunk_size (re_split text) ([], lit "")).
Qed.

Lemma join_cons (sep a : str) (l : list str) :
  l <> [] -> join sep (a :: l) = a ++ sep ++ join sep l.
Proof. destruct l; [easy | reflexivity]. Qed.

Lemma join_merge (sep x y : str) (A R : list str) :
  join sep (A ++ (x ++ sep ++ y) :: R) = join sep (A ++ x :: y :: R).
Proof.
  induction A as [|a A IH].
  - cbn [app]. destruct R as [|r R].
    + reflexivity.
    + rewrite !join_cons by easy. now rewrite <- !app_assoc.
  - cbn [app]. rewrite !join_cons by (destruct A; easy). now rewrite IH.
Qed.

Lemma chunk_loop_join (chunk_size : Z) (rest : list str) :
  forall chunks current,
    Forall (fun s => s <> []) rest -> current <> [] ->
    forall chunks' current',
      chunk_loop chunk_size rest (chunks, current) = (chunks', current') ->
      current' <> []
      /\ join (lit " ") (chunks' ++ [current'])
         = join (lit " ") ((chunks ++ [current]) ++ rest).
Proof.
  induction rest as [|s rest IH]; intros chunks current F N chunks' current' E.
  - injection E as <- <-. now rewrite app_nil_r.
  - inversion F as [|? ? Ns F']; subst. rewrite chunk_loop_cons in E.
    unfold chunk_step in E. apply truthy_true in N. rewrite N in E.
    destruct ((len current + len s >? chunk_size) && true).
    + apply IH in E; auto. now rewrite <- app_assoc in E.
    + apply IH in E; auto; [|now destruct current].
      destruct E as [E1 E2]. split; [exact E1|]. rewrite E2.
      rewrite <- !app_assoc. cbn [app]. apply join_merge.
Qed.

Lemma make_chunks_join (text : str) (chunk_size : Z) :
  ~ In [] (re_split text) ->
  join (lit " ") (make_chunks text chunk_size)
  = join (lit " ") (re_split text).
Proof.
  intros H. unfold make_chunks, chunks_of_sentences.
  destruct (split_from_cons Plain text) as (p & ps & E).
  unfold re_split in *. rewrite E in *.
  assert (F : Forall (fun s : str => s <> []) (p :: ps)).
  { apply Forall_forall. intros s I ->. now apply H. }
  inversion F as [|? ? Np Fps]; subst.
  rewrite chunk_loop_cons. change (lit "") with (@nil char).
  rewrite chunk_step_first.
  destruct (chunk_loop chunk_size ps ([], p)) as [chunks current] eqn:L.
  apply chunk_loop_join in L as [N J]; auto.
  unfold flush. apply truthy_true in N. now rewrite N.
Qed.

(** X7.  When no sentence of the text is empty, that is when the text is
    not empty and does not end in a separator, the units joined by single
    spaces are the sentences joined by single spaces: the text with every
    separator made one space. *)
Theorem units_joined_normalise (text : str) (chunk_size : Z) :
  ~ In [] (re_split text) ->
  join (lit " ") (make_chunks text chunk_size)
  = join (lit " ") (re_split text).
Proof. apply make_chunks_join. Qed.

Lemma units_joined_normalise_witness :
  ~ In [] (re_split (lit "Aa.  Bb.   Cc. Dd."))
  /\ join (lit " ") (make_chunks (lit "Aa.  Bb.   Cc. Dd.") 7)
     = lit "Aa. Bb. Cc. Dd.".
Proof.
  assert (H : ~ In [] (re_split (lit "Aa.  Bb.   Cc. Dd."))).
  { simpl. intros [H|[H|[H|[H|[]]]]]; discriminate H. }
  split; [exact H|].
  apply (units_joined_normalise (lit "Aa.  Bb.   Cc. Dd.") 7 H).
Defined.

Lemma join_space_length (st : scan) (s : str) :
  (List.length (join (lit " ") (split_from st s)) <= List.length s)%nat.
Proof.
  revert st; induction s as [|c s IH]; intros st; [destruct st; simpl; lia|].
  assert (P : forall st',
             (List.length (join (lit " ") (push c (split_from st' s)))
              <= List.length (c :: s))%nat).
  { intros st'. specialize (IH st').
    destruct (split_from_cons st' s) as (p & ps & E). rewrite E in *.
    cbn [push]. destruct ps as [|q ps]; simpl in *; lia. }
  destruct st; cbn [split_from]; try destruct (isspace c); try apply P.
  - rewrite join_cons by apply split_from_not_nil.
    specialize (IH InSeparator). simpl in *. lia.
  - specialize (IH InSeparator). simpl. lia.
Qed.

Lemma len_join_cons (a : str) (l : list str) :
  len a <= len (join (lit " ") (a :: l)).
Proof.
  destruct l as [|b l]; [simpl; lia|].
  rewrite join_cons, len_app by easy. unfold len. lia.
Qed.

Lemma chunk_loop_fits (chunk_size : Z) (rest : list str) :
  forall chunks current,
    current <> [] ->
    len (join (lit " ") (current :: rest)) <= chunk_size ->
    chunk_loop chunk_size rest (chunks, current)
    = (chunks, join (lit " ") (current :: rest)).
Proof.
  induction rest as [|s rest IH]; intros chunks current N L; [reflexivity|].
  rewrite chunk_loop_cons. unfold chunk_step.
  rewrite join_cons, len_app, len_app in L by easy.
  pose proof (len_join_cons s rest) as Ls.
  change (len (lit " ")) with 1 in L.
  replace (len current + len s >? chunk_size) with false
    by (symmetry; rewrite Z.gtb_ltb; apply Z.ltb_ge; lia).
  cbn [andb]. apply truthy_true in N. rewrite N.
  pose proof (join_merge (lit " ") current s [] rest) as M. cbn [app] in M.
  rewrite IH.
  - now rewrite M.
  - now destruct current.
  - rewrite M, join_cons, !len_app by easy.
    change (len (lit " ")) with 1. lia.
Qed.

(** X8.  A text that is not empty and fits the limit is one unit: its
    sentences joined by single spaces. *)
Theorem text_within_limit_single_unit (text : str) (chunk_size : Z) :
  text <> [] -> len text <= chunk_size ->
  make_chunks text chunk_size = [join (lit " ") (re_split text)].
Proof.
  intros N L. unfold make_chunks, chunks_of_sentences.
  pose proof (join_space_length Plain text) as J. fold (re_split text) in J.
  destruct text as [|c s]; [easy|].
  destruct (re_split_cons c s) as (p & ps & E). rewrite E in *.
  rewrite chunk_loop_cons. change (lit "") with (@nil char).
  rewrite chunk_step_first, chunk_loop_fits; [|easy|unfold len in *; lia].
  unfold flush.
  replace (truthy (join (lit " ") ((c :: p) :: ps))) with true; [reflexivity|].
  destruct ps; reflexivity.
Qed.

Lemma text_within_limit_single_unit_witness :
  lit "Aa.  Bb.   Cc. " <> [] /\ len (lit "Aa.  Bb.   Cc. ") <= 20
  /\ make_chunks (lit "Aa.  Bb.   Cc. ") 20 = [lit "Aa. Bb. Cc. "].
Proof.
  split; [discriminate|]. split; [vm_compute; discriminate|].
  apply (text_within_limit_single_unit (lit "Aa.  Bb.   Cc. ") 20);
    [discriminate | vm_compute; discriminate].
Defined.

(** ** More on the loop over the units *)

Lemma complete_answers (h : history) :
  complete h = true -> (1 <= List.length (answers h) <= 3)%nat.
Proof.
  destruct h as [errs [p|]]; unfold complete, answers;
    cbn [errors payload]; change (Z.to_nat max_retries) with 3%nat;
    rewrite length_app, length_map; cbn [List.length];
    [rewrite Nat.ltb_lt | rewrite Nat.eqb_eq]; lia.
Qed.

Lemma slept_app (a b : list event) : slept (a ++ b) = slept a + slept b.
Proof.
  induction a as [|ev a IH]; [reflexivity|].
  destruct ev; cbn [app slept fold_right] in *; fold (slept (a ++ b));
    fold (slept a); lia.
Qed.

Lemma backend_texts_app (a b : list event) :
  backend_texts (a ++ b) = backend_texts a ++ backend_texts b.
Proof. apply flat_map_app. Qed.

Lemma slept_progress (progress_callback : option callback)
  (current total : Z) :
  slept (progress_event progress_callback current total) = 0.
Proof. now destruct progress_callback. Qed.

Lemma backend_texts_progress (progress_callback : option callback)
  (current total : Z) :
  backend_texts (progress_event progress_callback current total) = [].
Proof. now destruct progress_callback. Qed.

Lemma complete_cases (h : history) :
  complete h = true ->
  (exists p, h = History [] (Some p))
  \/ (exists e1 p, h = History [e1] (Some p))
  \/ (exists e1 e2 p, h = History [e1; e2] (Some p))
  \/ (exists e1 e2 e3, h = History [e1; e2; e3] None).
Proof.
  destruct h as [errs [p|]]; unfold complete; cbn [errors payload];
    change (Z.to_nat max_retries) with 3%nat;
    destruct errs as [|e1 [|e2 [|e3 [|e4 errs]]]]; try discriminate;
    intros _; eauto 10.
Qed.

Section UnitFacts.

Variables source_lang target_lang : str.

Lemma unit_events_slept (u : str) (h : history) :
  complete h = true ->
  0 <= slept (unit_events source_lang target_lang u h) <= 6.
Proof.
  intros C.
  destruct (complete_cases h C)
    as [(p & ->)|[(e1 & p & ->)|[(e1 & e2 & p & ->)|(e1 & e2 & e3 & ->)]]];
    vm_compute; split; discriminate.
Qed.

Lemma unit_events_texts (u : str) (h : history) :
  complete h = true ->
  backend_texts (unit_events source_lang target_lang u h)
  = repeat u (List.length (answers h)).
Proof.
  intros C.
  destruct (complete_cases h C)
    as [(p & ->)|[(e1 & p & ->)|[(e1 & e2 & p & ->)|(e1 & e2 & e3 & ->)]]];
    reflexivity.
Qed.

Lemma unit_events_languages (u : str) (h : history) (s t x : str) :
  In (EvBackend s t x) (unit_events source_lang target_lang u h) ->
  s = source_lang /\ t = target_lang.
Proof.
  intros I.
  pose proof (attempts_unit_events source_lang target_lang
                failed_attempt_number u (List.length (answers h) - 1)) as F.
  rewrite Forall_forall in F. destruct (F _ I) as [E|[d E]].
  - now injection E as -> -> ->.
  - discriminate E.
Qed.

End UnitFacts.

Section LoopFacts.

Variable backend : nat -> str -> str -> str -> result str.
Variables source_lang target_lang : str.

Lemma scripted_complete (units : list str) :
  forall hs c,
    scripted backend source_lang target_lang c units hs = true ->
    forallb complete hs = true.
Proof.
  induction units as [|u us IH]; intros [|h hs] c S; try discriminate.
  - reflexivity.
  - cbn [scripted] in S. apply andb_prop in S as [S S3].
    apply andb_prop in S as [S1 _]. cbn [forallb]. rewrite S1. eauto.
Qed.

Lemma total_used_bounds (hs : list history) :
  forallb complete hs = true ->
  (List.length hs <= total_used hs <= 3 * List.length hs)%nat.
Proof.
  unfold total_used. induction hs as [|h hs IH]; intros C; [simpl; lia|].
  cbn [forallb] in C. apply andb_prop in C as [C1 C2].
  pose proof (complete_answers h C1). specialize (IH C2).
  rewrite map_cons.
  change (list_sum (?a :: ?l)) with (a + list_sum l)%nat.
  cbn [List.length]. lia.
Qed.

Lemma chunk_events_slept (progress_callback : option callback) (total : Z)
  (chunks : list str) :
  forall hs i,
    List.length hs = List.length chunks -> forallb complete hs = true ->
    Z.of_nat (List.length chunks)
    <= slept (chunk_events source_lang target_lang progress_callback total i
                           chunks hs)
    <= 7 * Z.of_nat (List.length chunks).
Proof.
  induction chunks as [|u us IH]; intros [|h hs] i L C; try discriminate.
  - simpl. lia.
  - cbn [forallb] in C. apply andb_prop in C as [C1 C2].
    cbn [chunk_events]. rewrite !slept_app, slept_progress.
    pose proof (unit_events_slept source_lang target_lang u h C1).
    specialize (IH hs (i + 1) ltac:(now injection L) C2).
    change (slept [EvSleep 1]) with 1.
    cbn [List.length]. lia.
Qed.

Lemma chunk_events_texts (progress_callback : option callback) (total : Z)
  (chunks : list str) :
  forall hs i,
    List.length hs = List.length chunks -> forallb complete hs = true ->
    backend_texts (chunk_events source_lang target_lang progress_callback
                                total i chunks hs)
    = concat (map (fun uc => repeat (fst uc) (snd uc))
                  (combine chunks
                           (map (fun h => List.length (answers h)) hs))).
Proof.
  induction chunks as [|u us IH]; intros [|h hs] i L C; try discriminate.
  - reflexivity.
  - cbn [forallb] in C. apply andb_prop in C as [C1 C2].
    cbn [chunk_events]. rewrite !backend_texts_app, backend_texts_progress.
    rewrite (unit_events_texts _ _ _ _ C1).
    rewrite (IH hs (i + 1)) by (auto; now injection L).
    reflexivity.
Qed.

Lemma chunk_events_languages (progress_callback : option callback)
  (total : Z) (chunks : list str) :
  forall hs i,
    attempts_for source_lang target_lang
      (chunk_events source_lang target_lang progress_callback total i
                    chunks hs).
Proof.
  unfold attempts_for.
  induction chunks as [|u us IH]; intros [|h hs] i s t x I;
    try (now destruct I).
  cbn [chunk_events] in I. rewrite !in_app_iff in I.
  destruct I as [I|[I|[I|I]]].
  - destruct progress_callback; simpl in I; [destruct I as [I|[]]|destruct I].
    discriminate I.
  - eapply unit_events_languages; eauto.
  - destruct I as [I|[]]. discriminate I.
  - eapply IH; eauto.
Qed.

End LoopFacts.

Lemma outcome_texts_length (hs : list history) :
  forall i, List.length (outcome_texts i hs) = List.length hs.
Proof. induction hs as [|h hs IH]; intros i; simpl; auto. Qed.

Section Observed.

Variable backend : nat -> str -> str -> str -> result str.
Variables source_lang target_lang : str.

(** The loop over the units runs to its end when the callback returns, and
    some histories of the units tell what it does. *)
Lemma translate_chunks_observed (progress_callback : option callback)
  (total i : Z) (chunks acc : list str) (w : world) :
  quiet progress_callback ->
  exists hs,
    List.length hs = List.length chunks /\ forallb complete hs = true
    /\ scripted backend source_lang target_lang (calls w) chunks hs = true
    /\ translate_chunks backend source_lang target_lang progress_callback
                        total i chunks acc w
       = (inl (acc ++ outcome_texts i hs),
          World (calls w + total_used hs)
                (trace w ++ chunk_events source_lang target_lang
                              progress_callback total i chunks hs)).
Proof.
  intros Q.
  pose proof (scripted_observe_all backend source_lang target_lang chunks
                (calls w)) as S.
  eexists. split; [|split; [|split; [exact S|]]].
  - eapply scripted_length; eauto.
  - eapply scripted_complete; eauto.
  - now apply translate_chunks_run.
Qed.

Lemma translate_long_text_observed (text : str) (chunk_size : Z)
  (progress_callback : option callback) (w : world) :
  quiet progress_callback ->
  exists hs,
    List.length hs = List.length (make_chunks text chunk_size)
    /\ forallb complete hs = true
    /\ scripted backend source_lang target_lang (calls w)
                (make_chunks text chunk_size) hs = true
    /\ translate_long_text backend text source_lang target_lang chunk_size
                           progress_callback w
       = (inl (join (lit " ") (outcome_texts 0 hs)),
          World (calls w + total_used hs)
                (trace w ++ chunk_events source_lang target_lang
                              progress_callback
                              (Z.of_nat
                                 (List.length (make_chunks text chunk_size)))
                              0 (make_chunks text chunk_size) hs)).
Proof.
  intros Q.
  destruct (translate_chunks_observed progress_callback
              (Z.of_nat (List.length (make_chunks text chunk_size))) 0
              (make_chunks text chunk_size) [] w Q) as (hs & L & C & S & R).
  exists hs. repeat split; auto.
  now apply translate_long_text_run.
Qed.

End Observed.

(** X9.  When the callback returns, the loop over the units adds one text
    per unit to [translated_chunks], whatever the backend does: there are as
    many outcomes as units. *)
Theorem one_outcome_per_unit
  (backend : nat -> str -> str -> str -> result str)
  (source_lang target_lang : str) (progress_callback : option callback)
  (total i : Z) (chunks acc : list str) (w : world) :
  quiet progress_callback ->
  exists outcomes,
    fst (translate_chunks backend source_lang target_lang progress_callback
                          total i chunks acc w)
    = inl (acc ++ outcomes)
    /\ List.length outcomes = List.length chunks.
Proof.
  intros Q.
  destruct (translate_chunks_observed backend source_lang target_lang
              progress_callback total i chunks acc w Q)
    as (hs & L & _ & _ & ->).
  eexists. split; [reflexivity|]. now rewrite outcome_texts_length.
Qed.

Lemma one_outcome_per_unit_witness :
  quiet (Some silent)
  /\ exists outcomes,
    fst (translate_chunks flaky_stub auto en (Some silent) 2 0
                          [lit "Aa."; lit "Bb."] [] start)
    = inl ([] ++ outcomes)
    /\ List.length outcomes = List.length [lit "Aa."; lit "Bb."].
Proof.
  assert (Q : quiet (Some silent)) by (intros f [= <-]; reflexivity).
  split; [exact Q|].
  apply (one_outcome_per_unit flaky_stub auto en (Some silent) 2 0
           [lit "Aa."; lit "Bb."] [] start Q).
Defined.

(** X10.  When the callback returns, the long path over [N] units makes at
    least [N] and at most [3 * N] backend attempts. *)
Theorem attempts_between_one_and_three_per_unit
  (backend : nat -> str -> str -> str -> result str)
  (text source_lang target_lang : str) (chunk_size : Z)
  (progress_callback : option callback) (w : world) :
  quiet progress_callback ->
  (calls w + List.length (make_chunks text chunk_size)
   <= calls (snd (translate_long_text backend text source_lang target_lang
                                      chunk_size progress_callback w))
   <= calls w + 3 * List.length (make_chunks text chunk_size))%nat.
Proof.
  intros Q.
  destruct (translate_long_text_observed backend source_lang target_lang
              text chunk_size progress_callback w Q)
    as (hs & L & C & _ & ->).
  cbn [snd calls]. pose proof (total_used_bounds hs C). lia.
Qed.

Lemma attempts_between_one_and_three_per_unit_witness :
  quiet None
  /\ (calls start + List.length (make_chunks (lit "Aa. Bb. Cc. Dd.") 7)
      <= calls (snd (translate_long_text flaky_stub (lit "Aa. Bb. Cc. Dd.")
                                         auto en 7 None start))
      <= calls start
         + 3 * List.length (make_chunks (lit "Aa. Bb. Cc. Dd.") 7))%nat.
Proof.
  assert (Q : quiet None) by (intros f; discriminate).
  split; [exact Q|].
  apply (attempts_between_one_and_three_per_unit flaky_stub
           (lit "Aa. Bb. Cc. Dd.") auto en 7 None start Q).
Defined.

(** X11.  When the callback returns, the long path over [N] units sleeps at
    least [N] seconds, the pacing, and at most [7 * N]: one second of
    pacing and up to [2 + 4] seconds of backoff per unit. *)
Theorem sleep_between_one_and_seven_per_unit
  (backend : nat -> str -> str -> str -> result str)
  (text source_lang target_lang : str) (chunk_size : Z)
  (progress_callback : option callback) (w : world) :
  quiet progress_callback ->
  slept (trace w) + Z.of_nat (List.length (make_chunks text chunk_size))
  <= slept (trace (snd (translate_long_text backend text source_lang
                          target_lang chunk_size progress_callback w)))
  <= slept (trace w)
     + 7 * Z.of_nat (List.length (make_chunks text chunk_size)).
Proof.
  intros Q.
  destruct (translate_long_text_observed backend source_lang target_lang
              text chunk_size progress_callback w Q)
    as (hs & L & C & _ & ->).
  cbn [snd trace]. rewrite slept_app.
  pose proof (chunk_events_slept source_lang target_lang progress_callback
                (Z.of_nat (List.length (make_chunks text chunk_size)))
                (make_chunks text chunk_size) hs 0 L C).
  lia.
Qed.

Lemma sleep_between_one_and_seven_per_unit_witness :
  quiet None
  /\ slept (trace start)
     + Z.of_nat (List.length (make_chunks (lit "Aa. Bb. Cc. Dd.") 7))
     <= slept (trace (snd (translate_long_text down_stub
                             (lit "Aa. Bb. Cc. Dd.") auto en 7 None start)))
     <= slept (trace start)
        + 7 * Z.of_nat (List.length (make_chunks (lit "Aa. Bb. Cc. Dd.") 7)).
Proof.
  assert (Q : quiet None) by (intros f; discriminate).
  split; [exact Q|].
  apply (sleep_between_one_and_seven_per_unit down_stub
           (lit "Aa. Bb. Cc. Dd.") auto en 7 None start Q).
Defined.

(** X12.  When the callback returns, the texts sent to the backend are the
    units in their order, each one from one to three times in a row: no
    unit is passed over, none is sent out of turn, none is taken up again
    later. *)
Theorem units_attempted_in_order
  (backend : nat -> str -> str -> str -> result str)
  (text source_lang target_lang : str) (chunk_size : Z)
  (progress_callback : option callback) (w : world) :
  quiet progress_callback ->
  exists counts,
    List.length counts = List.length (make_chunks text chunk_size)
    /\ Forall (fun n => (1 <= n <= 3)%nat) counts
    /\ backend_texts
         (trace (snd (translate_long_text backend text source_lang
                        target_lang chunk_size progress_callback w)))
       = backend_texts (trace w)
         ++ concat (map (fun uc => repeat (fst uc) (snd uc))
                        (combine (make_chunks text chunk_size) counts)).
Proof.
  intros Q.
  destruct (translate_long_text_observed backend source_lang target_lang
              text chunk_size progress_callback w Q)
    as (hs & L & C & _ & ->).
  exists (map (fun h => List.length (answers h)) hs).
  split; [now rewrite length_map|]. split.
  - apply Forall_map, Forall_forall. intros h I.
    apply complete_answers. rewrite forallb_forall in C. now apply C.
  - cbn [snd trace]. rewrite backend_texts_app. f_equal.
    now apply chunk_events_texts.
Qed.

Lemma units_attempted_in_order_witness :
  quiet None
  /\ exists counts,
    List.length counts
    = List.length (make_chunks (lit "Aa. Bb. Cc. Dd.") 7)
    /\ Forall (fun n => (1 <= n <= 3)%nat) counts
    /\ backend_texts
         (trace (snd (translate_long_text flaky_stub (lit "Aa. Bb. Cc. Dd.")
                        auto en 7 None start)))
       = backend_texts (trace start)
         ++ concat (map (fun uc => repeat (fst uc) (snd uc))
                        (combine (make_chunks (lit "Aa. Bb. Cc. Dd.") 7)
                                 counts)).
Proof.
  assert (Q : quiet None) by (intros f; discriminate).
  split; [exact Q|].
  apply (units_attempted_in_order flaky_stub (lit "Aa. Bb. Cc. Dd.") auto en
           7 None start Q).
Defined.

Section Success.

Variable backend : nat -> str -> str -> str -> result str.
Variables source_lang target_lang : str.
Variable g : str -> str.

Lemma scripted_success (units : list str) :
  (forall n u, In u units -> backend n source_lang target_lang u = inl (g u)) ->
  forall c,
    scripted backend source_lang target_lang c units
             (map (translated_by g) units)
    = true.
Proof.
  induction units as [|u us IH]; intros H c; [reflexivity|].
  cbn [map scripted]. unfold translated_by at 1 2 3.
  cbn [complete answers errors payload app answered List.length map].
  rewrite (H c u (or_introl eq_refl)), result_eqb_refl, IH; [reflexivity|].
  intros n v I. apply H. now right.
Qed.

Lemma outcome_texts_success (units : list str) :
  forall i, outcome_texts i (map (translated_by g) units) = map g units.
Proof.
  induction units as [|u us IH]; intros i; [reflexivity|].
  cbn [map outcome_texts]. now rewrite IH.
Qed.

Lemma total_used_success (units : list str) :
  total_used (map (translated_by g) units) = List.length units.
Proof.
  unfold total_used. induction units as [|u us IH]; [reflexivity|].
  cbn [map]. change (list_sum (?a :: ?l)) with (a + list_sum l)%nat.
  rewrite IH. reflexivity.
Qed.

Lemma chunk_events_success (total : Z) (units : list str) :
  forall i,
    chunk_events source_lang target_lang None total i units
                 (map (translated_by g) units)
    = flat_map (fun u => [EvBackend source_lang target_lang u; EvSleep 1])
               units.
Proof.
  induction units as [|u us IH]; intros i; [reflexivity|].
  cbn [map chunk_events flat_map progress_event app]. now rewrite IH.
Qed.

End Success.

(** X13.  With a backend that does not fail on the units, the long path
    without a callback makes one attempt per unit, in order, sleeps the one
    second of pacing after each and nothing else, and returns the
    translations of the units joined by single spaces. *)
Theorem all_units_succeed
  (backend : nat -> str -> str -> str -> result str) (g : str -> str)
  (text source_lang target_lang : str) (chunk_size : Z) (w : world) :
  (forall n u, In u (make_chunks text chunk_size) ->
     backend n source_lang target_lang u = inl (g u)) ->
  translate_long_text backend text source_lang target_lang chunk_size None w
  = (inl (join (lit " ") (map g (make_chunks text chunk_size))),
     World (calls w + List.length (make_chunks text chunk_size))
           (trace w
            ++ flat_map (fun u => [EvBackend source_lang target_lang u;
                                   EvSleep 1])
                        (make_chunks text chunk_size))).
Proof.
  intros H.
  rewrite (translate_long_text_run backend source_lang target_lang text
             chunk_size None w
             (map (translated_by g) (make_chunks text chunk_size)))
    by (try (now apply scripted_success); intros f; discriminate).
  now rewrite outcome_texts_success, total_used_success,
    chunk_events_success.
Qed.

Lemma all_units_succeed_witness :
  (forall n u, In u (make_chunks (lit "Aa. Bb. Cc. Dd.") 7) ->
     upper_stub n auto en u = inl (map upper u))
  /\ translate_long_text upper_stub (lit "Aa. Bb. Cc. Dd.") auto en 7 None
                         start
     = (inl (lit "AA. BB. CC. DD."),
        World 2 [EvBackend auto en (lit "Aa. Bb."); EvSleep 1;
                 EvBackend auto en (lit "Cc. Dd."); EvSleep 1]).
Proof.
  split; [reflexivity|].
  apply (all_units_succeed upper_stub (map upper) (lit "Aa. Bb. Cc. Dd.")
           auto en 7 start).
  reflexivity.
Defined.

Section Abort.

Variable backend : nat -> str -> str -> str -> result str.
Variables source_lang target_lang : str.

(** The loop over the units stops at the first report that raises. *)
Lemma translate_chunks_abort (f : callback) (total : Z) (e : str)
  (u : str) (rest : list str) (done : list str) :
  forall hs i acc w,
    scripted backend source_lang target_lang (calls w) done hs = true ->
    (forall k, (k < List.length done)%nat ->
       f (i + 1 + Z.of_nat k) total = None) ->
    f (i + 1 + Z.of_nat (List.length done)) total = Some e ->
    translate_chunks backend source_lang target_lang (Some f) total i
                     (done ++ u :: rest) acc w
    = (inr e,
       World (calls w + total_used hs)
             (trace w
              ++ chunk_events source_lang target_lang (Some f) total i
                              done hs
              ++ [EvProgress (i + 1 + Z.of_nat (List.length done)) total])).
Proof.
  induction done as [|d done IH]; intros [|h hs] i acc w S Q R;
    try discriminate.
  - cbn [app translate_chunks List.length] in *.
    rewrite Z.add_0_r in *. unfold bind at 1, call_progress, bind, emit.
    rewrite R. unfold raise. f_equal.
    apply world_eq; [unfold total_used; simpl; lia | reflexivity].
  - cbn [scripted] in S. apply andb_prop in S as [S S3].
    apply andb_prop in S as [S1 S2].
    cbn [app translate_chunks]. unfold bind at 1.
    unfold call_progress at 1, bind at 1, emit at 1.
    pose proof (Q 0%nat ltac:(simpl; lia)) as Q0.
    rewrite Z.add_0_r in Q0. rewrite Q0. unfold ret at 1.
    unfold bind at 1.
    rewrite (retry_loop_run backend source_lang target_lang _ _ _ _ h)
      by assumption.
    cbn [calls trace]. unfold bind at 1, sleep, emit. cbn [calls trace].
    rewrite (IH hs).
    + cbn [calls trace chunk_events progress_event List.length].
      f_equal. apply world_eq.
      * unfold total_used. rewrite map_cons.
        change (list_sum (?a :: ?l)) with (a + list_sum l)%nat. lia.
      * rewrite <- !app_assoc. cbn [app]. do 5 f_equal.
        do 2 f_equal. lia.
    + exact S3.
    + intros k K. specialize (Q (S k) ltac:(simpl; lia)).
      rewrite <- Q. f_equal. lia.
    + rewrite <- R. f_equal. cbn [List.length]. lia.
Qed.

End Abort.

(** X14.  A callback that raises stops the whole job: when the report of the
    unit after [done] raises with message [e], the long path returns
    ["Translation error: "] followed by [e] and nothing of the translations
    of the units before; only those units were sent to the backend. *)
Theorem raising_callback_aborts
  (backend : nat -> str -> str -> str -> result str)
  (text source_lang target_lang : str) (chunk_size : Z) (f : callback)
  (w : world) (done : list str) (u : str) (rest : list str)
  (hs : list history) (e : str) :
  make_chunks text chunk_size = done ++ u :: rest ->
  scripted backend source_lang target_lang (calls w) done hs = true ->
  (forall k, (k < List.length done)%nat ->
     f (1 + Z.of_nat k) (Z.of_nat (List.length (done ++ u :: rest))) = None) ->
  f (1 + Z.of_nat (List.length done))
    (Z.of_nat (List.length (done ++ u :: rest))) = Some e ->
  fst (translate_long_text backend text source_lang target_lang chunk_size
                           (Some f) w)
  = inl (lit "Translation error: " ++ e)
  /\ calls (snd (translate_long_text backend text source_lang target_lang
                                     chunk_size (Some f) w))
     = (calls w + total_used hs)%nat.
Proof.
  intros E S Q R. unfold translate_long_text, try_except, bind.
  rewrite E.
  rewrite (translate_chunks_abort backend source_lang target_lang f _ e u
             rest done hs 0 [] w S Q R).
  split; reflexivity.
Qed.

Lemma raising_callback_aborts_witness :
  make_chunks (lit "Aa. Bb. Cc. Dd.") 7 = [lit "Aa. Bb."] ++ lit "Cc. Dd." :: []
  /\ scripted upper_stub auto en (calls start) [lit "Aa. Bb."]
       [History [] (Some (lit "AA. BB."))] = true
  /\ fst (translate_long_text upper_stub (lit "Aa. Bb. Cc. Dd.") auto en 7
            (Some (fun current _ =>
                     if current =? 2 then Some (lit "stop") else None))
            start)
     = inl (lit "Translation error: " ++ lit "stop")
  /\ calls (snd (translate_long_text upper_stub (lit "Aa. Bb. Cc. Dd.")
                   auto en 7
                   (Some (fun current _ =>
                            if current =? 2 then Some (lit "stop") else None))
                   start))
     = (calls start + total_used [History [] (Some (lit "AA. BB."))])%nat.
Proof.
  split; [reflexivity|]. split; [reflexivity|].
  apply (raising_callback_aborts upper_stub (lit "Aa. Bb. Cc. Dd.") auto en 7
           (fun current _ => if current =? 2 then Some (lit "stop") else None)
           start [lit "Aa. Bb."] (lit "Cc. Dd.") []
           [History [] (Some (lit "AA. BB."))] (lit "stop"));
    [reflexivity | reflexivity | | reflexivity].
  intros k K. destruct k; [reflexivity | simpl in K; lia].
Defined.

(** ** Finding a failure in the result *)

Lemma starts_with_app (needle a b : str) :
  starts_with needle a = true -> starts_with needle (a ++ b) = true.
Proof.
  revert a; induction needle as [|n needle IH]; intros a H; [reflexivity|].
  destruct a as [|c a]; [discriminate|]. cbn [starts_with app] in *.
  apply andb_prop in H as [-> H]. now rewrite IH.
Qed.

Lemma contains_app_l (needle a b : str) :
  contains needle a = true -> contains needle (a ++ b) = true.
Proof.
  induction a as [|c a IH]; intros H.
  - cbn [contains] in H. rewrite orb_false_r in H.
    destruct needle; [|discriminate]. now destruct b.
  - cbn [contains app] in *. apply orb_prop in H as [H|H].
    + change (c :: a ++ b) with ((c :: a) ++ b).
      now rewrite starts_with_app.
    + rewrite IH by assumption. apply orb_true_r.
Qed.

Lemma contains_app_r (needle a b : str) :
  contains needle b = true -> contains needle (a ++ b) = true.
Proof.
  intros H. induction a as [|c a IH]; [assumption|].
  cbn [contains app]. rewrite IH. apply orb_true_r.
Qed.

Lemma contains_join (needle sep : str) (parts : list str) (x : str) :
  In x parts -> contains needle x = true ->
  contains needle (join sep parts) = true.
Proof.
  intros I H. induction parts as [|p parts IH]; [destruct I|].
  destruct parts as [|q parts].
  - destruct I as [->|[]]. exact H.
  - rewrite join_cons by easy. destruct I as [->|I].
    + now apply contains_app_l.
    + apply contains_app_r, contains_app_r. now apply IH.
Qed.

Lemma failure_marker_found (i : Z) (e : str) :
  contains failure_needle (failure_marker i e) = true.
Proof. reflexivity. Qed.

Lemma failed_outcome_in (hs : list history) :
  existsb failed hs = true ->
  forall i, exists j e, In (failure_marker j e) (outcome_texts i hs).
Proof.
  induction hs as [|h hs IH]; intros E i; [discriminate|].
  cbn [existsb] in E. apply orb_prop in E as [E|E].
  - exists i, (last (errors h) []). left.
    unfold outcome_text, failed, succeeded in *. now destruct (payload h).
  - destruct (IH E (i + 1)) as (j & e & I). exists j, e. now right.
Qed.

(** X15.  When the callback returns and the attempts on some unit all fail,
    the result of the long path contains ["Translation failed for chunk"]:
    the test of [show_translator] (line 1505 of [app_enhanced.py]) finds
    every partial failure of the long path. *)
Theorem failed_unit_is_detected
  (backend : nat -> str -> str -> str -> result str)
  (text source_lang target_lang : str) (chunk_size : Z)
  (progress_callback : option callback) (w : world) (hs : list history) :
  quiet progress_callback ->
  scripted backend source_lang target_lang (calls w)
           (make_chunks text chunk_size) hs = true ->
  existsb failed hs = true ->
  exists translated,
    fst (translate_long_text backend text source_lang target_lang chunk_size
                             progress_callback w) = inl translated
    /\ contains failure_needle translated = true.
Proof.
  intros Q S F.
  rewrite (translate_long_text_run _ _ _ _ _ _ _ _ Q S). cbn [fst].
  eexists. split; [reflexivity|].
  destruct (failed_outcome_in hs F 0) as (j & e & I).
  eapply contains_join; [exact I | apply failure_marker_found].
Qed.

Lemma failed_unit_is_detected_witness :
  quiet None
  /\ scripted (picky_stub (lit "Cc. Dd.")) auto en (calls start)
       (make_chunks (lit "Aa. Bb. Cc. Dd.") 7)
       [History [] (Some (lit "AA. BB."));
        History [lit "boom"; lit "boom"; lit "boom"] None] = true
  /\ existsb failed
       [History [] (Some (lit "AA. BB."));
        History [lit "boom"; lit "boom"; lit "boom"] None] = true
  /\ exists translated,
    fst (translate_long_text (picky_stub (lit "Cc. Dd."))
           (lit "Aa. Bb. Cc. Dd.") auto en 7 None start) = inl translated
    /\ contains failure_needle translated = true.
Proof.
  assert (Q : quiet None) by (intros f; discriminate).
  split; [exact Q|]. split; [reflexivity|]. split; [reflexivity|].
  apply (failed_unit_is_detected (picky_stub (lit "Cc. Dd."))
           (lit "Aa. Bb. Cc. Dd.") auto en 7 None start
           [History [] (Some (lit "AA. BB."));
            History [lit "boom"; lit "boom"; lit "boom"] None] Q);
    reflexivity.
Defined.

(** ** The arguments of the reports *)



(** ** The retry loop on one unit *)

(** X17.  When an attempt on a unit succeeds, at the first, the second or
    the third try, the retry loop adds the translation of that attempt to
    [translated_chunks], not a marker, and makes no attempt after it. *)
Theorem retry_stops_at_first_success
  (backend : nat -> str -> str -> str -> result str)
  (source_lang target_lang : str) (i : Z) (chunk : str) (acc : list str)
  (w : world) (h : history) (p : str) :
  complete h = true ->
  answered backend source_lang target_lang (calls w) chunk (answers h) = true ->
  payload h = Some p ->
  fst (retry_loop backend source_lang target_lang i chunk
                  (range max_retries) acc w)
  = inl (acc ++ [p])
  /\ calls (snd (retry_loop backend source_lang target_lang i chunk
                            (range max_retries) acc w))
     = (calls w + List.length (errors h) + 1)%nat.
Proof.
  intros C A P. rewrite (retry_loop_run _ _ _ _ _ _ _ h) by assumption.
  cbn [fst snd calls]. unfold outcome_text, answers. rewrite P.
  split; [reflexivity|]. rewrite length_app, length_map. simpl. lia.
Qed.

Lemma retry_stops_at_first_success_witness :
  complete (History [lit "boom"] (Some (lit "HI."))) = true
  /\ answered flaky_stub auto en (calls start) (lit "Hi.")
       (answers (History [lit "boom"] (Some (lit "HI.")))) = true
  /\ payload (History [lit "boom"] (Some (lit "HI."))) = Some (lit "HI.")
  /\ fst (retry_loop flaky_stub auto en 0 (lit "Hi.") (range max_retries)
                     [] start)
     = inl ([] ++ [lit "HI."])
  /\ calls (snd (retry_loop flaky_stub auto en 0 (lit "Hi.")
                            (range max_retries) [] start))
     = (calls start
        + List.length (errors (History [lit "boom"] (Some (lit "HI."))))
        + 1)%nat.
Proof.
  split; [reflexivity|]. split; [reflexivity|]. split; [reflexivity|].
  apply (retry_stops_at_first_success flaky_stub auto en 0 (lit "Hi.") []
           start (History [lit "boom"] (Some (lit "HI."))) (lit "HI."));
    reflexivity.
Defined.

(** ** The top-level call *)

Section TopLevel.

Variable backend : nat -> str -> str -> str -> result str.
Variables source_lang target_lang : str.

Lemma translate_trace (text : str) (chunk_size : Z) (w : world) :
  exists tr,
    trace (snd (translate backend text source_lang target_lang chunk_size w))
    = trace w ++ tr
    /\ attempts_for source_lang target_lang tr
    /\ (blank text = false ->
        (calls w
         < calls (snd (translate backend text source_lang target_lang
                                 chunk_size w)))%nat).
Proof.
  destruct (blank text) eqn:B.
  - rewrite translate_blank by assumption. exists []. cbn [snd trace].
    rewrite app_nil_r. split; [reflexivity|]. split; [|discriminate].
    intros s t x [].
  - destruct (Z_le_gt_dec (len text) chunk_size) as [L|L].
    + rewrite translate_short by assumption. cbn [snd trace calls].
      eexists. split; [reflexivity|]. split; [|lia].
      intros s t x [I|[]]. now injection I as -> -> ->.
    + rewrite translate_long by assumption.
      assert (Q : quiet None) by (intros f; discriminate).
      destruct (translate_long_text_observed backend source_lang target_lang
                  text chunk_size None w Q) as (hs & Lh & C & _ & ->).
      cbn [snd trace calls]. eexists. split; [reflexivity|]. split.
      * apply chunk_events_languages.
      * intros _. pose proof (total_used_bounds hs C) as T.
        assert (N : make_chunks text chunk_size <> []).
        { rewrite make_chunks_nil_iff. intros ->. discriminate B. }
        destruct (make_chunks text chunk_size); [easy|].
        simpl in Lh. lia.
Qed.

End TopLevel.

(** X18.  For a text that is not blank [translate] makes at least one
    backend attempt, whatever its length and the limit: only the blank
    texts are answered without the backend. *)
Theorem nonblank_text_reaches_backend
  (backend : nat -> str -> str -> str -> result str)
  (text source_lang target_lang : str) (chunk_size : Z) (w : world) :
  blank text = false ->
  (calls w
   < calls (snd (translate backend text source_lang target_lang chunk_size
                           w)))%nat.
Proof.
  destruct (translate_trace backend source_lang target_lang text chunk_size
              w) as (tr & _ & _ & H).
  exact H.
Qed.

Lemma nonblank_text_reaches_backend_witness :
  blank (lit " x ") = false
  /\ (calls start
      < calls (snd (translate down_stub (lit " x ") auto en 0 start)))%nat.
Proof.
  split; [reflexivity|].
  apply (nonblank_text_reaches_backend down_stub (lit " x ") auto en 0 start).
  reflexivity.
Defined.

(** X19.  Every backend attempt of [translate_book_excerpt] asks for a
    translation from ["auto"] to the target language it was given, for every
    excerpt and whatever the backend answers. *)
Theorem excerpt_attempts_auto_to_target
  (backend : nat -> str -> str -> str -> result str)
  (excerpt target_lang : str) (w : world) :
  exists tr,
    trace (snd (translate_book_excerpt backend excerpt target_lang w))
    = trace w ++ tr
    /\ attempts_for (lit "auto") target_lang tr.
Proof.
  unfold translate_book_excerpt.
  destruct (translate_trace backend (lit "auto") target_lang excerpt 4500 w)
    as (tr & E & A & _).
  now exists tr.
Qed.

(** ** The select boxes of the app *)

Lemma nth_push (c : char) (l : list str) :
  nth 0 (push c l) [] = c :: nth 0 l [].
Proof. now destruct l. Qed.

(** An entry made of a code without a space, [" - "] and a name reads back
    as the code. *)
Lemma selected_code_entry (code name : str) :
  ~ In 32%N code -> selected_code (code ++ lit " - " ++ name) = code.
Proof.
  unfold selected_code, split. induction code as [|c code IH]; intros N.
  - reflexivity.
  - cbn [app split_sep].
    assert (E : (32 =? c)%N = false).
    { apply N.eqb_neq. intros <-. apply N. now left. }
    change (starts_with (lit " - ") (c :: code ++ lit " - " ++ name))
      with ((32 =? c)%N
            && starts_with [45%N; 32%N] (code ++ lit " - " ++ name)).
    rewrite E. cbn [andb]. rewrite nth_push, IH; [reflexivity|].
    intros I. apply N. now right.
Qed.

(** X20.  The code that [show_translator] reads back from an entry of a
    select box, [selection.split(" - ")[0]], is the code the entry was made
    from: ["auto"] for the first source entry and, for the entries of the
    supported languages, their codes in order. *)
Theorem selection_reads_back_code :
  map selected_code source_options = lit "auto" :: lang_codes.
Proof.
  unfold source_options. cbn [map]. apply (f_equal2 cons); [reflexivity|].
  unfold lang_names, lang_codes.
  rewrite map_map. apply map_ext_in. intros [code name] I.
  cbn [fst snd]. apply selected_code_entry.
  unfold get_supported_languages, supported_languages in I.
  repeat (destruct I as [I|I];
          [injection I as <- <-; intros S; vm_compute in S;
           repeat (destruct S as [S|S]; [discriminate S|]); exact S|]).
  destruct I.
Qed.

(** ** The pipeline with a backend that changes nothing *)

(** X21.  With a backend that gives every unit back as it is, the long path
    returns the sentences of the text joined by single spaces, when none of
    them is empty: nothing of the text is lost, doubled or moved, and only
    the separators are made one space. *)
Theorem identity_backend_normalises
  (backend : nat -> str -> str -> str -> result str)
  (text source_lang target_lang : str) (chunk_size : Z) (w : world) :
  (forall n u, backend n source_lang target_lang u = inl u) ->
  ~ In [] (re_split text) ->
  fst (translate_long_text backend text source_lang target_lang chunk_size
                           None w)
  = inl (join (lit " ") (re_split text)).
Proof.
  intros H N.
  rewrite (translate_long_text_run backend source_lang target_lang text
             chunk_size None w
             (map (translated_by (fun u => u))
                  (make_chunks text chunk_size)))
    by (try (apply scripted_success; intros n u _; apply H);
        intros f; discriminate).
  cbn [fst]. rewrite outcome_texts_success, map_id.
  now rewrite make_chunks_join.
Qed.

Lemma identity_backend_normalises_witness :
  (forall n u, echo_stub n auto en u = inl u)
  /\ ~ In [] (re_split (lit "Aa.  Bb.   Cc. Dd."))
  /\ fst (translate_long_text echo_stub
            (lit "Aa.  Bb.   Cc. Dd.") auto en 7 None start)
     = inl (lit "Aa. Bb. Cc. Dd.").
Proof.
  assert (H : ~ In [] (re_split (lit "Aa.  Bb.   Cc. Dd."))).
  { simpl. intros [H|[H|[H|[H|[]]]]]; discriminate H. }
  split; [reflexivity|]. split; [exact H|].
  apply (identity_backend_normalises echo_stub
           (lit "Aa.  Bb.   Cc. Dd.") auto en 7 start);
    [reflexivity | exact H].
Defined.

(** ** Units are packed *)

Lemma packed_grow (chunk_size : Z) (l : list str) (x x' : str) :
  len x <= len x' -> packed chunk_size (l ++ [x]) ->
  packed chunk_size (l ++ [x']).
Proof.
  intros L. induction l as [|a l IH]; [easy|].
  destruct l as [|b l].
  - cbn [app packed]. intros [G _]. split; [lia | exact I].
  - cbn [app packed] in *. intros [G P]. split; [exact G | now apply IH].
Qed.

Lemma packed_snoc (chunk_size : Z) (l : list str) (a b : str) :
  len a + len b > chunk_size -> packed chunk_size (l ++ [a]) ->
  packed chunk_size ((l ++ [a]) ++ [b]).
Proof.
  intros G. induction l as [|c l IH].
  - cbn [app packed]. auto.
  - destruct l as [|d l].
    + cbn [app packed]. intros [G' _]. auto.
    + cbn [app packed] in *. intros [G' P]. split; [exact G' | now apply IH].
Qed.

Lemma packed_init (chunk_size : Z) (l : list str) (x : str) :
  packed chunk_size (l ++ [x]) -> packed chunk_size l.
Proof.
  induction l as [|a l IH]; [easy|].
  destruct l as [|b l]; [easy|].
  cbn [app packed] in *. intros [G P]. split; [|now apply IH].
  destruct l; exact G.
Qed.

Lemma chunk_loop_packed (chunk_size : Z) (rest : list str) :
  forall chunks current,
    packed chunk_size (chunks ++ [current]) ->
    forall chunks' current',
      chunk_loop chunk_size rest (chunks, current) = (chunks', current') ->
      packed chunk_size (chunks' ++ [current']).
Proof.
  induction rest as [|s rest IH]; intros chunks current P chunks' current' E.
  - now injection E as <- <-.
  - rewrite chunk_loop_cons in E. unfold chunk_step in E.
    destruct (len current + len s >? chunk_size) eqn:G;
      [destruct (truthy current)|]; cbn [andb] in E;
      eapply IH in E; eauto.
    + apply packed_snoc; auto. apply Z.gtb_gt in G. lia.
    + eapply packed_grow; [|exact P]. rewrite !len_app. unfold len. lia.
    + eapply packed_grow; [|exact P]. rewrite !len_app. unfold len. lia.
Qed.

Lemma make_chunks_packed (text : str) (chunk_size : Z) :
  packed chunk_size (make_chunks text chunk_size).
Proof.
  unfold make_chunks, chunks_of_sentences.
  destruct (chunk_loop chunk_size (re_split text) ([], lit ""))
    as [chunks current] eqn:E.
  apply chunk_loop_packed in E; [|exact I].
  unfold flush. destruct (truthy current); [exact E|].
  eapply packed_init; eauto.
Qed.

Lemma packed_neighbours (chunk_size : Z) (pre : list str) :
  forall units u v post,
    packed chunk_size units -> units = pre ++ u :: v :: post ->
    len u + len v > chunk_size.
Proof.
  induction pre as [|a pre IH]; intros units u v post P ->.
  - cbn [app packed] in P. apply P.
  - cbn [app] in P. eapply IH; [|reflexivity].
    destruct pre as [|b pre]; cbn [app packed] in *; apply P.
Qed.

(** X22.  Units are packed: two units that follow each other are together
    longer than the limit, so the chunker never closes a unit that the next
    one would still have fitted in. *)
Theorem neighbouring_units_exceed_limit (text : str) (chunk_size : Z)
  (pre : list str) (u v : str) (post : list str) :
  make_chunks text chunk_size = pre ++ u :: v :: post ->
  len u + len v > chunk_size.
Proof.
  intros E. eapply packed_neighbours; [apply make_chunks_packed | exact E].
Qed.

Lemma neighbouring_units_exceed_limit_witness :
  make_chunks (lit "Aa. Bb. Cc. Dd.") 7
  = [] ++ lit "Aa. Bb." :: lit "Cc. Dd." :: []
  /\ len (lit "Aa. Bb.") + len (lit "Cc. Dd.") > 7.
Proof.
  split; [reflexivity|].
  apply (neighbouring_units_exceed_limit (lit "Aa. Bb. Cc. Dd.") 7 []
           (lit "Aa. Bb.") (lit "Cc. Dd.") []).
  reflexivity.
Defined.
